(** * StegaCipher: the LSB steganography codec of
      [server/services/steganography.ts], embedded and verified.

    The codec works on the raw RGBA pixel buffer that the image library
    hands out ([sharp(...).ensureAlpha().raw().toBuffer()]) and hands the
    modified raw buffer back to it for lossless PNG packing.  The embedding
    starts and stops at that raw buffer.

    Conventions of the embedding:
    - a [Buffer] is a [list Z] of bytes living in a store of buffers that
      is threaded through the code which allocates or writes buffers;
    - a JavaScript string is represented by the sequence of its UTF-8 code
      units, a Rocq [string] that is well-formed UTF-8; [Buffer.from(s,
      'utf8')] reads the code units off, and [buf.toString('utf8')] decodes
      any bytes into such a string;
    - thrown [Error]s are values of the type [error];
    - the [crypto] module is an interface ([NodeCrypto]); the random
      initialisation vector is an explicit argument. *)

From Stdlib Require Import ZArith Lia Ascii String ZifyNat.
From stdpp Require Import base numbers list gmap strings.

(** ** Bytes, strings and buffers *)

Definition byte_of_ascii (c : ascii) : Z := Z.of_N (N_of_ascii c).
Definition ascii_of_byte (b : Z) : ascii := ascii_of_N (Z.to_N b).

(** [Buffer.from(s, 'utf8')] *)
Definition utf8_bytes (s : string) : list Z :=
  byte_of_ascii <$> list_ascii_of_string s.

(** The UTF-8 decoder behind [buf.toString('utf8')] never fails: a byte
    that cannot start or continue a sequence makes it emit U+FFFD (the
    bytes EF BF BD here) and start afresh at that byte.  Its state is the
    bytes of the sequence read so far, the number of bytes still needed,
    and the bounds of the next continuation byte. *)
Record utf8_state : Type := Utf8State {
  utf8_seen : list Z;
  utf8_needed : nat;
  utf8_lower : Z;
  utf8_upper : Z;
}.

Definition utf8_idle : utf8_state := Utf8State [] 0 128 191.

Definition utf8_replacement : list Z := [239; 191; 189]%Z.

(** A byte read when no sequence is open. *)
Definition utf8_lead (b : Z) : list Z * utf8_state :=
  if (b <=? 127)%Z then ([b], utf8_idle)
  else if ((194 <=? b) && (b <=? 223))%Z then ([], Utf8State [b] 1 128 191)
  else if ((224 <=? b) && (b <=? 239))%Z then
    ([], Utf8State [b] 2 (if (b =? 224)%Z then 160 else 128)%Z
                        (if (b =? 237)%Z then 159 else 191)%Z)
  else if ((240 <=? b) && (b <=? 244))%Z then
    ([], Utf8State [b] 3 (if (b =? 240)%Z then 144 else 128)%Z
                        (if (b =? 244)%Z then 143 else 191)%Z)
  else (utf8_replacement, utf8_idle).

Definition utf8_step (st : utf8_state) (b : Z) : list Z * utf8_state :=
  match utf8_needed st with
  | 0 => utf8_lead b
  | S needed =>
      if ((utf8_lower st <=? b) && (b <=? utf8_upper st))%Z then
        match needed with
        | 0 => (utf8_seen st ++ [b], utf8_idle)
        | _ => ([], Utf8State (utf8_seen st ++ [b]) needed 128 191)
        end
      else
        let '(out, st') := utf8_lead b in (utf8_replacement ++ out, st')
  end.

Fixpoint utf8_run (st : utf8_state) (bs : list Z) : list Z :=
  match bs with
  | [] => match utf8_needed st with 0 => [] | _ => utf8_replacement end
  | b :: bs' => let '(out, st') := utf8_step st b in out ++ utf8_run st' bs'
  end.

(** [buf.toString('utf8')] *)
Definition utf8_string (bs : list Z) : string :=
  string_of_list_ascii (ascii_of_byte <$> utf8_run utf8_idle bs).

(** [Buffer.from(array)]: every entry is stored as an unsigned byte. *)
Definition buffer_of_array (xs : list Z) : list Z := (λ x, x `mod` 256)%Z <$> xs.

(** [xs.slice(0, -1)] *)
Definition slice_0_m1 {A} (xs : list A) : list A := take (length xs - 1) xs.

(** The store of buffers.  Locations are allocated by [Buffer.from]. *)
Abbreviation loc := positive.
Abbreviation store := (gmap loc (list Z)).

(** [buf.length] *)
Definition buffer_length (σ : store) (l : loc) : nat :=
  length (default [] (σ !! l)).

(** [buf[i]] used as a number under a bit operator: an index past the end
    reads [undefined], which the bit operators turn into 0. *)
Definition buffer_get (σ : store) (l : loc) (i : nat) : Z :=
  default 0%Z (σ !! l ≫= (.!! i)).

(** [buf[i] = v]: the value wraps to an unsigned byte, and a write past the
    end of a typed array is dropped. *)
Definition buffer_set (σ : store) (l : loc) (i : nat) (v : Z) : store :=
  alter (<[i := (v `mod` 256)%Z]>) l σ.

(** [Buffer.from(data)]: a fresh buffer holding a copy of [data]. *)
Definition buffer_from (σ : store) (data : loc) : loc * store :=
  let l := fresh (dom σ) in
  (l, <[l := default [] (σ !! data)]> σ).

(** ** Errors *)

Inductive error : Type :=
  | MessageTooLarge (maxBytes requiredBytes : nat)
      (* `Message too large. Max capacity: ${maxBytes} bytes, required: ${requiredBytes} bytes` *)
  | NoMessageFound
      (* 'No message found or message delimiter not detected' *)
  | CryptoError (reason : string)
      (* whatever the crypto module throws *)
  | EncodingFailed (cause : error)
      (* `Encoding failed: ${cause.message}` *)
  | DecodingFailed (cause : error).
      (* `Decoding failed: ${cause.message}` *)

Inductive result (A : Type) : Type :=
  | Ok (a : A)
  | Throw (e : error).
Arguments Ok {A} a.
Arguments Throw {A} e.

(** [try { ... } catch (error) { throw new Error(`<prefix>: ${error.message}`) }] *)
Definition try_catch {A} (wrap : error → error) (r : result A) : result A :=
  match r with
  | Ok a => Ok a
  | Throw e => Throw (wrap e)
  end.

(** ** Hexadecimal strings *)

Definition hex_digit (n : Z) : ascii :=
  if (n <? 10)%Z then ascii_of_byte (48 + n) else ascii_of_byte (87 + n).

(** [buf.toString('hex')] *)
Fixpoint hex_of_bytes (bs : list Z) : string :=
  match bs with
  | [] => EmptyString
  | b :: bs' =>
      String (hex_digit (b `div` 16)) (String (hex_digit (b `mod` 16)) (hex_of_bytes bs'))
  end.

Definition hex_value (c : ascii) : option Z :=
  let n := byte_of_ascii c in
  if ((48 <=? n) && (n <=? 57))%Z then Some (n - 48)%Z
  else if ((97 <=? n) && (n <=? 102))%Z then Some (n - 87)%Z
  else if ((65 <=? n) && (n <=? 70))%Z then Some (n - 55)%Z
  else None.

(** [Buffer.from(s, 'hex')]: decoding stops at the first pair that is not
    two hexadecimal digits; nothing is thrown. *)
Fixpoint bytes_of_hex (s : string) : list Z :=
  match s with
  | String a (String b rest) =>
      match hex_value a, hex_value b with
      | Some x, Some y => (16 * x + y)%Z :: bytes_of_hex rest
      | _, _ => []
      end
  | _ => []
  end.

(** [s.split(sep)] for a one-character separator. *)
Fixpoint split_on (sep : ascii) (s : string) : list string :=
  match s with
  | EmptyString => [EmptyString]
  | String c s' =>
      if Ascii.eqb c sep then EmptyString :: split_on sep s'
      else match split_on sep s' with
           | [] => [String c EmptyString]
           | w :: ws => String c w :: ws
           end
  end.

(** ** The crypto module *)

Class NodeCrypto := {
  (** [crypto.createHash('sha256').update(key).digest()] *)
  sha256_digest : string → list Z;
  (** [c = crypto.createCipher('aes-256-cbc', keyHash)], then
      [c.update(message, 'utf8', 'hex') + c.final('hex')] *)
  cipher_hex : list Z → string → string;
  (** [d = crypto.createDecipher('aes-256-cbc', keyHash)], then
      [d.update(encrypted, 'hex', 'utf8') + d.final('utf8')]: the plaintext
      ([inl]), or the reason of the error thrown on a bad final block
      ([inr]) *)
  decipher_utf8 : list Z → string → string + string;
}.

(** Truthiness of an optional string argument: [undefined] and [''] are
    falsy. *)
Definition truthy (key : option string) : option string :=
  match key with
  | Some EmptyString => None
  | other => other
  end.

Section Codec.
Context `{NodeCrypto}.

(** [encryptMessage(message, key)], with [iv = crypto.randomBytes(16)]
    passed in. *)
Definition encryptMessage (message key : string) (iv : list Z) : string :=
  let keyHash := sha256_digest key in
  let encrypted := cipher_hex keyHash message in
  hex_of_bytes iv +:+ ":" +:+ encrypted.

(** [decryptMessage(encryptedMessage, key)] *)
Definition decryptMessage (encryptedMessage key : string) : result string :=
  let keyHash := sha256_digest key in
  let parts := split_on ":" encryptedMessage in
  let ivHex := default EmptyString (parts !! 0) in
  let encrypted := parts !! 1 in
  let iv := bytes_of_hex ivHex in
  match encrypted with
  | Some encrypted =>
      match decipher_utf8 keyHash encrypted with
      | inl decrypted => Ok decrypted
      | inr reason => Throw (CryptoError reason)
      end
  | None => Throw (CryptoError "ERR_INVALID_ARG_TYPE")
  end.

(** *** Encoding *)

(** [Math.floor(bitIndex / 3) * 4 + (bitIndex % 3)] *)
Definition pixelIndexOf (bitIndex : nat) : nat :=
  bitIndex / 3 * 4 + bitIndex mod 3.

(** [(byte >> (7 - bit)) & 1] *)
Definition messageBitOf (byte : Z) (bit : nat) : Z :=
  Z.land (Z.shiftr byte (7 - Z.of_nat bit)) 1.

(** [(old & 0xFE) | messageBit] *)
Definition setLSB (old messageBit : Z) : Z :=
  Z.lor (Z.land old 254) messageBit.

(** Body of the inner loop [for (bit = 0; bit < 8; bit++)]; the state is
    the store and [bitIndex]. *)
Definition encode_bit (modifiedData : loc) (byte : Z)
    (st : store * nat) (bit : nat) : store * nat :=
  let '(σ, bitIndex) := st in
  let messageBit := messageBitOf byte bit in
  let pixelIndex := pixelIndexOf bitIndex in
  (buffer_set σ modifiedData pixelIndex
     (setLSB (buffer_get σ modifiedData pixelIndex) messageBit),
   S bitIndex).

(** Body of the outer loop over [messageBytes]. *)
Definition encode_byte (modifiedData : loc)
    (st : store * nat) (byte : Z) : store * nat :=
  foldl (encode_bit modifiedData byte) st (seq 0 8).

(** [Math.floor((data.length / 4) * 3)]: the quotient by 4 and its triple
    are exact in floating point, so this is the integer quotient of
    [3 * length] by 4. *)
Definition maxCapacityOf (dataLength : nat) : nat := 3 * dataLength / 4.

(** [encodeMessage] on the raw buffer [data]. *)
Definition encodeMessage (σ : store) (data : loc) (message : string)
    (encryptionKey : option string) (iv : list Z) : result loc * store :=
  let processedMessage :=
    match truthy encryptionKey with
    | Some key => encryptMessage message key iv
    | None => message
    end in
  let messageWithDelimiter := processedMessage +:+ String zero EmptyString in
  let messageBytes := utf8_bytes messageWithDelimiter in
  let maxCapacity := maxCapacityOf (buffer_length σ data) in
  let requiredBits := length messageBytes * 8 in
  if maxCapacity <? requiredBits then
    (try_catch EncodingFailed
       (Throw (MessageTooLarge (maxCapacity / 8) (length messageBytes))), σ)
  else
    let '(modifiedData, σ1) := buffer_from σ data in
    let '(σ2, _) := foldl (encode_byte modifiedData) (σ1, 0) messageBytes in
    (try_catch EncodingFailed (Ok modifiedData), σ2).

(** *** Decoding *)

(** Outcome of a loop body: go on with a new state, or [return]. *)
Inductive outcome (S R : Type) : Type :=
  | Continue (s : S)
  | Return (r : R).
Arguments Continue {S R} s.
Arguments Return {S R} r.

(** A [for] loop over the successive values [xs] of its index, whose body
    may [return] out of the enclosing function. *)
Fixpoint for_each {A S R} (body : S → A → outcome S R) (s : S) (xs : list A)
    : outcome S R :=
  match xs with
  | [] => Continue s
  | x :: xs' =>
      match body s x with
      | Continue s' => for_each body s' xs'
      | Return r => Return r
      end
  end.

(** The local variables of [decodeMessage] that the loops update. *)
Record scan_state : Type := ScanState {
  messageBytes : list Z;
  currentByte : Z;
  bitCount : nat;
  byteIndex : nat;
}.

(** [arr[i] = v] on a JavaScript array, for [i <= arr.length]: an index
    equal to the length appends. *)
Definition array_set (arr : list Z) (i : nat) (v : Z) : list Z :=
  if i <? length arr then <[i := v]> arr else arr ++ [v].

(** What [decodeMessage] does once the terminator is found. *)
Definition decode_finish (messageBytes : list Z) (decryptionKey : option string)
    : result string :=
  let messageBuffer := buffer_of_array (slice_0_m1 messageBytes) in
  let decodedMessage := utf8_string messageBuffer in
  match truthy decryptionKey with
  | Some key => decryptMessage decodedMessage key
  | None => Ok decodedMessage
  end.

(** Body of [for (channel = 0; channel < 3; channel++)]. *)
Definition decode_channel (σ : store) (data : loc) (decryptionKey : option string)
    (pixelIndex : nat) (st : scan_state) (channel : nat)
    : outcome scan_state (result string) :=
  let lsb := Z.land (buffer_get σ data (pixelIndex + channel)) 1 in
  let currentByte := Z.lor (Z.shiftl (currentByte st) 1) lsb in
  let bitCount := S (bitCount st) in
  if bitCount =? 8 then
    let messageBytes := array_set (messageBytes st) (byteIndex st) currentByte in
    let byteIndex := S (byteIndex st) in
    if bool_decide (messageBytes !! (byteIndex - 1) = Some 0%Z) then
      Return (decode_finish messageBytes decryptionKey)
    else
      Continue (ScanState messageBytes 0 0 byteIndex)
  else
    Continue (ScanState (messageBytes st) currentByte bitCount (byteIndex st)).

(** Body of [for (pixelIndex = 0; pixelIndex < data.length; pixelIndex += 4)]. *)
Definition decode_pixel (σ : store) (data : loc) (decryptionKey : option string)
    (st : scan_state) (pixelIndex : nat) : outcome scan_state (result string) :=
  for_each (decode_channel σ data decryptionKey pixelIndex) st (seq 0 3).

(** The values taken by [pixelIndex]: 0, 4, 8, ... below [dataLength]. *)
Definition pixelIndices (dataLength : nat) : list nat :=
  (λ p, 4 * p) <$> seq 0 ((dataLength + 3) / 4).

(** [decodeMessage] on the raw buffer [data]. *)
Definition decodeMessage (σ : store) (data : loc) (decryptionKey : option string)
    : result string :=
  try_catch DecodingFailed
    match for_each (decode_pixel σ data decryptionKey)
            (ScanState [] 0 0 0) (pixelIndices (buffer_length σ data)) with
    | Return r => r
    | Continue _ => Throw NoMessageFound
    end.

(** [calculateCapacity], on the dimensions that the image library reports
    for the image. *)
Definition calculateCapacity (width height : nat) : nat :=
  let totalPixels := width * height in
  let maxBits := totalPixels * 3 in
  maxBits / 8.

End Codec.

Arguments Continue {S R} s.
Arguments Return {S R} r.
Arguments pixelIndexOf : simpl never.
Arguments messageBitOf : simpl never.
Arguments setLSB : simpl never.

(** ** Specification-side definitions

    These are not in the source: they say what the loops compute, and the
    lemmas below relate them to the loops. *)

Definition is_bit (b : Z) : Prop := b = 0%Z ∨ b = 1%Z.
Definition is_byte (b : Z) : Prop := (0 ≤ b < 256)%Z.

(** Inverse of [pixelIndexOf] on the R, G and B offsets. *)
Definition bitIndexOf (offset : nat) : nat := offset / 4 * 3 + offset mod 4.
Arguments bitIndexOf : simpl never.

(** The bit stream of a byte sequence, most significant bit first. *)
Definition messageBits (bytes : list Z) : list Z :=
  bytes ≫= (λ byte, messageBitOf byte <$> seq 0 8).

(** One iteration of the inner encoding loop, given the message bit. *)
Definition write_bit (l : loc) (st : store * nat) (b : Z) : store * nat :=
  (buffer_set st.1 l (pixelIndexOf st.2)
     (setLSB (buffer_get st.1 l (pixelIndexOf st.2)) b), S st.2).

(** The buffer [buf] with the bit stream [bits] laid into the low bits of
    its R, G and B bytes. *)
Definition embedded (buf bits : list Z) : list Z :=
  imap (λ offset old,
    if bool_decide (offset mod 4 < 3) then
      match bits !! bitIndexOf offset with
      | Some b => setLSB old b
      | None => old
      end
    else old) buf.

(** The low bits that the decoding loops visit, in the order of the visit:
    three per started pixel. *)
Definition mappedLSBs (buf : list Z) : list Z :=
  (λ i, Z.land (default 0%Z (buf !! pixelIndexOf i)) 1)
    <$> seq 0 (3 * ((length buf + 3) / 4)).

(** [(currentByte << 1) | lsb] *)
Definition shift_in (currentByte lsb : Z) : Z :=
  Z.lor (Z.shiftl currentByte 1) lsb.

(** The bytes completed by a bit stream; left-over bits are dropped. *)
Fixpoint completedBytes (bits : list Z) : list Z :=
  match bits with
  | b7 :: b6 :: b5 :: b4 :: b3 :: b2 :: b1 :: b0 :: rest =>
      foldl shift_in 0%Z [b7; b6; b5; b4; b3; b2; b1; b0] :: completedBytes rest
  | _ => []
  end.

(** The bytes before the first [0x00], if there is one. *)
Fixpoint untilTerminator (bytes : list Z) : option (list Z) :=
  match bytes with
  | [] => None
  | b :: bytes' =>
      if bool_decide (b = 0%Z) then Some [] else (b ::.) <$> untilTerminator bytes'
  end.

(** The strings that stand for a JavaScript string: decoding their code
    units gives them back. *)
Definition well_formed (s : string) : Prop := utf8_string (utf8_bytes s) = s.

(** Does the string hold a NUL character? *)
Fixpoint has_nul (s : string) : bool :=
  match s with
  | EmptyString => false
  | String c s' => Ascii.eqb c zero || has_nul s'
  end.

(** Does the string hold a colon? *)
Fixpoint has_colon (s : string) : bool :=
  match s with
  | EmptyString => false
  | String c s' => Ascii.eqb c ":" || has_colon s'
  end.

(** Is the string made of lower-case hexadecimal digits only? *)
Fixpoint is_hex (s : string) : bool :=
  match s with
  | EmptyString => true
  | String c s' =>
      let n := byte_of_ascii c in
      (((48 <=? n) && (n <=? 57)) || ((97 <=? n) && (n <=? 102)))%Z && is_hex s'
  end.

Definition is_byteb (b : Z) : bool := ((0 <=? b) && (b <? 256))%Z.

(** The bytes that [encodeMessage] embeds: the processed message and the
    delimiter. *)
Definition framedBytes `{NodeCrypto} (message : string)
    (encryptionKey : option string) (iv : list Z) : list Z :=
  utf8_bytes
    (match truthy encryptionKey with
     | Some key => encryptMessage message key iv
     | None => message
     end +:+ String zero EmptyString).

(** One iteration of the inner decoding loop, given the low bit read. *)
Definition scan_bit `{NodeCrypto} (decryptionKey : option string)
    (st : scan_state) (lsb : Z) : outcome scan_state (result string) :=
  let currentByte := Z.lor (Z.shiftl (currentByte st) 1) lsb in
  let bitCount := S (bitCount st) in
  if bitCount =? 8 then
    let messageBytes := array_set (messageBytes st) (byteIndex st) currentByte in
    let byteIndex := S (byteIndex st) in
    if bool_decide (messageBytes !! (byteIndex - 1) = Some 0%Z) then
      Return (decode_finish messageBytes decryptionKey)
    else
      Continue (ScanState messageBytes 0 0 byteIndex)
  else
    Continue (ScanState (messageBytes st) currentByte bitCount (byteIndex st)).

(** ** Example inputs *)

(** A stand-in for the crypto module whose cipher is the hexadecimal
    rendering of the plaintext: enough to run the keyed paths. *)
Definition hex_crypto : NodeCrypto := {|
  sha256_digest key := utf8_bytes key;
  cipher_hex _ message := hex_of_bytes (utf8_bytes message);
  decipher_utf8 _ encrypted := inl (utf8_string (bytes_of_hex encrypted));
|}.

(** A store holding one all-zero image of [pixels] pixels at location 1. *)
Definition zero_image (pixels : nat) : store :=
  {[ 1%positive := replicate (4 * pixels) 0%Z ]}.

Ltac Zify.zify_post_hook ::= Z.to_euclidean_division_equations.
Ltac opt_simpl :=
  cbn [fmap option_fmap option_map default from_option mbind option_bind id].

(** * Facts *)

(** ** Offsets and bits *)

Lemma pixelIndexOf_mod4 i : pixelIndexOf i mod 4 = i mod 3.
Proof. unfold pixelIndexOf. lia. Qed.
Lemma bitIndexOf_pixelIndexOf i : bitIndexOf (pixelIndexOf i) = i.
Proof. unfold pixelIndexOf, bitIndexOf. lia. Qed.
Lemma pixelIndexOf_bitIndexOf j : j mod 4 < 3 → pixelIndexOf (bitIndexOf j) = j.
Proof. unfold pixelIndexOf, bitIndexOf. lia. Qed.

Lemma land_254 x : Z.land x 254 = (2 * ((x `div` 2) `mod` 128))%Z.
Proof.
  transitivity (Z.shiftl (Z.land (Z.shiftr x 1) (Z.ones 7)) 1).
  - apply Z.bits_inj'; intros n Hn.
    rewrite Z.land_spec, Z.shiftl_spec by done.
    change 254%Z with (Z.shiftl (Z.ones 7) 1).
    rewrite Z.shiftl_spec by done.
    destruct (decide (n = 0%Z)) as [->|Hn0].
    + simpl. by rewrite andb_false_r.
    + rewrite Z.land_spec, Z.shiftr_spec by lia.
      by replace (n - 1 + 1)%Z with n by lia.
  - rewrite Z.shiftl_mul_pow2, Z.land_ones, Z.shiftr_div_pow2 by lia.
    change (2 ^ 1)%Z with 2%Z. change (2 ^ 7)%Z with 128%Z. lia.
Qed.

Lemma lor_even_bit y b : is_bit b → Z.lor (2 * y) b = (2 * y + b)%Z.
Proof.
  intros [-> | ->].
  - by rewrite Z.lor_0_r, Z.add_0_r.
  - rewrite <- Z.lxor_lor, <- Z.add_nocarry_lxor; try done.
    all: change 1%Z with (Z.ones 1); rewrite Z.land_ones by lia;
      change (2 ^ 1)%Z with 2%Z; lia.
Qed.

Lemma setLSB_arith old b :
  is_bit b → setLSB old b = (2 * ((old `div` 2) `mod` 128) + b)%Z.
Proof. intros Hb. unfold setLSB. by rewrite land_254, lor_even_bit. Qed.

Lemma setLSB_is_byte old b : is_bit b → is_byte (setLSB old b).
Proof. intros Hb. rewrite setLSB_arith by done. unfold is_byte. destruct Hb; lia. Qed.

Lemma land_1 x : Z.land x 1 = (x `mod` 2)%Z.
Proof. change 1%Z with (Z.ones 1). by rewrite Z.land_ones. Qed.

Lemma setLSB_read old b : is_bit b → Z.land (setLSB old b) 1 = b.
Proof. intros Hb. rewrite land_1, setLSB_arith by done. destruct Hb; lia. Qed.

Lemma messageBitOf_is_bit byte bit : is_bit (messageBitOf byte bit).
Proof. unfold messageBitOf, is_bit. rewrite land_1. lia. Qed.

Lemma embedded_length buf bits : length (embedded buf bits) = length buf.
Proof. unfold embedded. by rewrite length_imap. Qed.

Lemma embedded_lookup buf bits j :
  embedded buf bits !! j =
    (λ old, if bool_decide (j mod 4 < 3) then
              match bits !! bitIndexOf j with
              | Some b => setLSB old b
              | None => old
              end
            else old) <$> buf !! j.
Proof. unfold embedded. by rewrite list_lookup_imap. Qed.

Lemma embedded_nil buf : embedded buf [] = buf.
Proof.
  apply list_eq; intros j. rewrite embedded_lookup.
  destruct (buf !! j); simpl; [|done]. by case_bool_decide.
Qed.

Lemma embedded_snoc buf bits b :
  is_bit b →
  embedded buf (bits ++ [b]) =
    <[pixelIndexOf (length bits) :=
        (setLSB (default 0%Z (embedded buf bits !! pixelIndexOf (length bits))) b
           `mod` 256)%Z]> (embedded buf bits).
Proof.
  intros Hb. apply list_eq; intros j.
  destruct (decide (j = pixelIndexOf (length bits))) as [->|Hj].
  - destruct (decide (pixelIndexOf (length bits) < length buf)) as [Hlt|Hge].
    + rewrite list_lookup_insert_eq by (by rewrite embedded_length).
      rewrite !embedded_lookup, bitIndexOf_pixelIndexOf.
      destruct (lookup_lt_is_Some_2 buf _ Hlt) as [old ->]; opt_simpl.
      rewrite bool_decide_eq_true_2 by (rewrite pixelIndexOf_mod4; lia).
      rewrite lookup_app_r, Nat.sub_diag by lia.
      rewrite (lookup_ge_None_2 bits) by lia. simpl.
      pose proof (setLSB_is_byte old b Hb) as Hr. unfold is_byte in Hr.
      by rewrite Z.mod_small.
    + rewrite list_insert_ge by (rewrite embedded_length; lia).
      rewrite !embedded_lookup. by rewrite (lookup_ge_None_2 buf) by lia.
  - rewrite list_lookup_insert_ne by done.
    rewrite !embedded_lookup. destruct (buf !! j) as [old|]; opt_simpl; [|done].
    case_bool_decide as Hm; [|done].
    assert (bitIndexOf j ≠ length bits) as Hne.
    { intros Heq. apply Hj. by rewrite <- Heq, pixelIndexOf_bitIndexOf. }
    destruct (decide (bitIndexOf j < length bits)).
    + by rewrite lookup_app_l.
    + rewrite (lookup_ge_None_2 bits) by lia.
      rewrite (lookup_ge_None_2 (bits ++ [b])); [done|].
      rewrite length_app. simpl. lia.
Qed.

Lemma write_bits_store (σ : store) l buf bits :
  σ !! l = Some buf → Forall is_bit bits →
  foldl (write_bit l) (σ, 0) bits = (<[l := embedded buf bits]> σ, length bits).
Proof.
  intros Hl. induction bits as [|b bits IH] using rev_ind; intros Hbits.
  - simpl. by rewrite embedded_nil, insert_id.
  - apply Forall_app in Hbits as [Hbits Hb%Forall_inv].
    rewrite foldl_app, IH by done. cbn [foldl]. unfold write_bit; cbn [fst snd].
    rewrite length_app, Nat.add_1_r. f_equal.
    unfold buffer_set, buffer_get. rewrite lookup_insert_eq; opt_simpl.
    rewrite alter_insert_eq. by rewrite embedded_snoc.
Qed.

Lemma encode_byte_write_bits l st byte :
  encode_byte l st byte = foldl (write_bit l) st (messageBitOf byte <$> seq 0 8).
Proof.
  unfold encode_byte. rewrite foldl_fmap.
  generalize (seq 0 8). intros bits. revert st.
  induction bits as [|bit bits IH]; intros [σ i]; [done|].
  cbn [foldl]. by rewrite IH.
Qed.

Lemma encode_loop_write_bits l st bytes :
  foldl (encode_byte l) st bytes = foldl (write_bit l) st (messageBits bytes).
Proof.
  revert st. induction bytes as [|byte bytes IH]; intros st; [done|].
  unfold messageBits. rewrite bind_cons, foldl_app. cbn [foldl].
  by rewrite IH, encode_byte_write_bits.
Qed.

Lemma messageBits_is_bit bytes : Forall is_bit (messageBits bytes).
Proof.
  unfold messageBits. apply Forall_bind, Forall_true. intros byte.
  apply Forall_fmap, Forall_true. intros bit. apply messageBitOf_is_bit.
Qed.

Lemma messageBits_length bytes : length (messageBits bytes) = length bytes * 8.
Proof.
  induction bytes as [|b bytes IH]; [done|].
  unfold messageBits in *. rewrite bind_cons, length_app, IH.
  rewrite length_fmap, length_seq. cbn [length]. lia.
Qed.

(** The store after the two encoding loops. *)
Lemma encode_loop_store (σ : store) l buf bytes :
  σ !! l = Some buf →
  foldl (encode_byte l) (σ, 0) bytes =
    (<[l := embedded buf (messageBits bytes)]> σ, length bytes * 8).
Proof.
  intros Hl. rewrite encode_loop_write_bits.
  rewrite (write_bits_store σ l buf) by auto using messageBits_is_bit.
  by rewrite messageBits_length.
Qed.

(** ** [encodeMessage] as a function of the input buffer *)

Lemma encodeMessage_throw `{NodeCrypto} (σ : store) data message key iv :
  maxCapacityOf (buffer_length σ data) < length (framedBytes message key iv) * 8 →
  encodeMessage σ data message key iv =
    (Throw (EncodingFailed
       (MessageTooLarge (maxCapacityOf (buffer_length σ data) / 8)
          (length (framedBytes message key iv)))), σ).
Proof.
  intros Hlt. unfold encodeMessage. fold (framedBytes message key iv).
  by rewrite (proj2 (Nat.ltb_lt _ _) Hlt).
Qed.

Lemma encodeMessage_ok `{NodeCrypto} (σ : store) data message key iv :
  length (framedBytes message key iv) * 8 ≤ maxCapacityOf (buffer_length σ data) →
  encodeMessage σ data message key iv =
    (Ok (fresh (dom σ)),
     <[fresh (dom σ) :=
         embedded (default [] (σ !! data)) (messageBits (framedBytes message key iv))]> σ).
Proof.
  intros Hle. unfold encodeMessage. fold (framedBytes message key iv).
  rewrite (proj2 (Nat.ltb_ge _ _) Hle). unfold buffer_from.
  rewrite (encode_loop_store _ _ (default [] (σ !! data)))
    by apply lookup_insert_eq.
  by rewrite insert_insert_eq.
Qed.

Lemma fresh_loc_unused (σ : store) : σ !! fresh (dom σ) = None.
Proof. apply not_elem_of_dom, is_fresh. Qed.

Lemma buffer_length_Some (σ : store) data buf :
  σ !! data = Some buf → buffer_length σ data = length buf.
Proof. intros Hd. unfold buffer_length. by rewrite Hd. Qed.

Lemma encodeMessage_cases `{NodeCrypto} (σ : store) data message key iv :
  (maxCapacityOf (buffer_length σ data) < length (framedBytes message key iv) * 8 ∧
   encodeMessage σ data message key iv =
     (Throw (EncodingFailed
        (MessageTooLarge (maxCapacityOf (buffer_length σ data) / 8)
           (length (framedBytes message key iv)))), σ)) ∨
  (length (framedBytes message key iv) * 8 ≤ maxCapacityOf (buffer_length σ data) ∧
   encodeMessage σ data message key iv =
     (Ok (fresh (dom σ)),
      <[fresh (dom σ) :=
          embedded (default [] (σ !! data))
            (messageBits (framedBytes message key iv))]> σ)).
Proof.
  destruct (decide (maxCapacityOf (buffer_length σ data)
                      < length (framedBytes message key iv) * 8)).
  - left. split; [done|]. by apply encodeMessage_throw.
  - right. split; [lia|]. apply encodeMessage_ok. lia.
Qed.

(** C2.  On a buffer of [pixelCount] pixels (four bytes each) [encodeMessage]
    succeeds exactly when the required bits, eight per framed byte, are at
    most the capacity of three bits per pixel; when they are more it throws
    "Message too large" with the capacity in whole bytes and the framed byte
    length, the store untouched.  A 40-byte message in the 10x10 image is
    refused with 37 and 41. *)
Theorem encode_capacity_boundary `{NodeCrypto} (σ : store) data message key iv
    pixelCount :
  buffer_length σ data = 4 * pixelCount →
  let framed := framedBytes message key iv in
  let requiredBits := length framed * 8 in
  let capacityBits := pixelCount * 3 in
  ((∃ out σ', encodeMessage σ data message key iv = (Ok out, σ'))
     ↔ requiredBits ≤ capacityBits) ∧
  (capacityBits < requiredBits →
     encodeMessage σ data message key iv =
       (Throw (EncodingFailed (MessageTooLarge (capacityBits / 8) (length framed))),
        σ)) ∧
  encodeMessage (zero_image 100) 1 "0123456789012345678901234567890123456789"
      None []
    = (Throw (EncodingFailed (MessageTooLarge 37 41)), zero_image 100).
Proof.
  intros Hlen framed requiredBits capacityBits.
  assert (maxCapacityOf (buffer_length σ data) = capacityBits) as Hcap.
  { rewrite Hlen. unfold maxCapacityOf, capacityBits. lia. }
  split; [|split]; [| |done].
  - split.
    + intros (out & σ' & Hok).
      destruct (encodeMessage_cases σ data message key iv) as [[_ Hr]|[Hle _]];
        [congruence|]. by rewrite Hcap in Hle.
    + intros Hle. do 2 eexists. apply encodeMessage_ok. by rewrite Hcap.
  - intros Hlt. rewrite <- Hcap. apply encodeMessage_throw. by rewrite Hcap.
Qed.

Lemma encode_capacity_boundary_witness :
  buffer_length (zero_image 100) 1 = 4 * 100 ∧
  ∃ out σ', @encodeMessage hex_crypto (zero_image 100) 1 "hi" None [] = (Ok out, σ').
Proof.
  split; [reflexivity|].
  apply (@encode_capacity_boundary hex_crypto (zero_image 100) 1%positive "hi"
           None [] 100 eq_refl).
  vm_compute. lia.
Defined.

(** C4.  [encodeMessage] never changes a buffer that exists when it is
    called: every location of the initial store holds the same bytes
    afterwards; when it throws the store is the initial one; when it returns,
    the returned location was unallocated before and is the only place where
    the final store differs from the initial one. *)
Theorem encode_preserves_input `{NodeCrypto} (σ : store) data message key iv :
  let '(r, σ') := encodeMessage σ data message key iv in
  (∀ l buf, σ !! l = Some buf → σ' !! l = Some buf) ∧
  (∀ e, r = Throw e → σ' = σ) ∧
  (∀ out, r = Ok out → σ !! out = None ∧ σ' = <[out := default [] (σ' !! out)]> σ).
Proof.
  destruct (encodeMessage_cases σ data message key iv) as [[_ ->]|[_ ->]].
  - split; [done|]. split; [done|]. intros out [=].
  - pose proof (fresh_loc_unused σ) as Hfresh.
    split; [|split].
    + intros l buf Hl. rewrite lookup_insert_ne; [done|]. congruence.
    + intros e [=].
    + intros out [= <-]. split; [done|]. by rewrite lookup_insert_eq.
Qed.

(** C7.  In the buffer returned by [encodeMessage], which is as long as the
    input, every byte at an offset congruent to 3 modulo 4 (the alpha byte
    of a pixel) is the byte of the input at that offset, whatever the
    message and the key. *)
Theorem encode_preserves_alpha `{NodeCrypto} (σ σ' : store) data buf message key iv
    out :
  σ !! data = Some buf →
  encodeMessage σ data message key iv = (Ok out, σ') →
  ∃ buf', σ' !! out = Some buf' ∧ length buf' = length buf ∧
    ∀ offset, offset mod 4 = 3 → buf' !! offset = buf !! offset.
Proof.
  intros Hd Henc.
  destruct (encodeMessage_cases σ data message key iv) as [[_ Hr]|[_ Hr]];
    rewrite Hr in Henc; [done|].
  injection Henc as <- <-. rewrite Hd. cbn [default from_option id].
  eexists. split; [apply lookup_insert_eq|]. split; [apply embedded_length|].
  intros offset Hoff. rewrite embedded_lookup.
  destruct (buf !! offset); [|done]. opt_simpl.
  by rewrite bool_decide_eq_false_2 by lia.
Qed.

Lemma encode_preserves_alpha_witness :
  ∃ buf', (@encodeMessage hex_crypto (zero_image 100) 1 "hi" None []).2 !! 2%positive
            = Some buf' ∧
    length buf' = 400 ∧
    ∀ offset, offset mod 4 = 3 → buf' !! offset = replicate 400 0%Z !! offset.
Proof.
  apply (@encode_preserves_alpha hex_crypto (zero_image 100)
           (@encodeMessage hex_crypto (zero_image 100) 1 "hi" None []).2
           1%positive (replicate (4 * 100) 0%Z) "hi" None [] 2%positive).
  - reflexivity.
  - vm_compute. reflexivity.
Defined.

Lemma setLSB_high_bits byte bit :
  is_byte byte → is_bit bit → Z.shiftr (setLSB byte bit) 1 = Z.shiftr byte 1.
Proof.
  intros Hbyte Hbit. rewrite setLSB_arith by done.
  rewrite !Z.shiftr_div_pow2 by lia. change (2 ^ 1)%Z with 2%Z.
  unfold is_byte in Hbyte. destruct Hbit; lia.
Qed.

Lemma setLSB_close byte bit :
  is_byte byte → is_bit bit → (Z.abs (setLSB byte bit - byte) ≤ 1)%Z.
Proof.
  intros Hbyte Hbit. rewrite setLSB_arith by done.
  unfold is_byte in Hbyte. destruct Hbit; lia.
Qed.

Lemma embedded_close buf bits offset old new :
  Forall is_byte buf → Forall is_bit bits →
  buf !! offset = Some old → embedded buf bits !! offset = Some new →
  (Z.abs (new - old) ≤ 1)%Z.
Proof.
  intros Hbuf Hbits Hold. rewrite embedded_lookup, Hold. opt_simpl.
  pose proof (Forall_lookup_1 _ _ _ _ Hbuf Hold) as Hbyte.
  case_bool_decide; [|intros [= <-]; lia].
  destruct (bits !! bitIndexOf offset) as [b|] eqn:Hb; intros [= <-]; [|lia].
  apply setLSB_close; [done|]. by eapply Forall_lookup_1.
Qed.

(** C6.  For a byte and a bit, [setLSB] is [(byte & 0xFE) | bit]; it keeps the
    seven high bits of the byte and moves its value by at most 1.  Hence
    every byte of the buffer returned by [encodeMessage] is within 1 of the
    byte of the input at the same offset. *)
Theorem encode_perturbation_bound `{NodeCrypto} (σ σ' : store) data buf message key
    iv out byte bit :
  is_byte byte → is_bit bit →
  σ !! data = Some buf → Forall is_byte buf →
  encodeMessage σ data message key iv = (Ok out, σ') →
  (setLSB byte bit = Z.lor (Z.land byte 254) bit ∧
   Z.shiftr (setLSB byte bit) 1 = Z.shiftr byte 1 ∧
   (Z.abs (setLSB byte bit - byte) ≤ 1)%Z) ∧
  ∃ buf', σ' !! out = Some buf' ∧ length buf' = length buf ∧
    ∀ offset old new,
      buf !! offset = Some old → buf' !! offset = Some new →
      (Z.abs (new - old) ≤ 1)%Z.
Proof.
  intros Hbyte Hbit Hd Hbuf Henc. split.
  - auto using setLSB_high_bits, setLSB_close.
  - destruct (encodeMessage_cases σ data message key iv) as [[_ Hr]|[_ Hr]];
      rewrite Hr in Henc; [done|].
    injection Henc as <- <-. rewrite Hd. cbn [default from_option id].
    eexists. split; [apply lookup_insert_eq|]. split; [apply embedded_length|].
    intros offset old new. apply embedded_close; [done|apply messageBits_is_bit].
Qed.

Lemma encode_perturbation_bound_witness :
  Z.shiftr (setLSB 201 0) 1 = Z.shiftr 201 1 ∧
  ∃ buf', (@encodeMessage hex_crypto (zero_image 100) 1 "hi" None []).2 !! 2%positive
            = Some buf' ∧
    ∀ offset old new,
      replicate 400 0%Z !! offset = Some old → buf' !! offset = Some new →
      (Z.abs (new - old) ≤ 1)%Z.
Proof.
  destruct (@encode_perturbation_bound hex_crypto (zero_image 100)
              (@encodeMessage hex_crypto (zero_image 100) 1 "hi" None []).2
              1%positive (replicate (4 * 100) 0%Z) "hi" None [] 2%positive
              201%Z 0%Z)
    as [(_ & Hhigh & _) (buf' & Hout & _ & Hclose)].
  - unfold is_byte. lia.
  - by left.
  - reflexivity.
  - apply Forall_replicate. unfold is_byte. lia.
  - vm_compute. reflexivity.
  - split; [exact Hhigh|]. exists buf'. split; [exact Hout|exact Hclose].
Defined.

(** The encoding loops, as one pass over the indexed bit stream. *)
Lemma write_bits_indexed l (σ : store) start bits :
  foldl (write_bit l) (σ, start) bits =
    (foldl (λ σ '(i, b),
        buffer_set σ l (i / 3 * 4 + i mod 3)
          (setLSB (buffer_get σ l (i / 3 * 4 + i mod 3)) b))
       σ (imap (λ i b, (start + i, b)) bits),
     start + length bits).
Proof.
  revert σ start. induction bits as [|b bits IH]; intros σ start.
  - cbn. by rewrite Nat.add_0_r.
  - cbn [foldl imap length]. unfold write_bit at 2. cbn [fst snd].
    rewrite IH. rewrite Nat.add_0_r. f_equal; [|lia].
    f_equal. apply imap_ext. intros i x _. cbn. f_equal. lia.
Qed.

(** C5.  The two encoding loops write the bit of index [i] of the bit stream
    at the offset [i / 3 * 4 + i mod 3], for [i] counting from 0.  That
    offset is [i mod 3] modulo 4, so it is never an alpha byte, and it lies
    in pixel [i / 3]; from one index to the next the offset moves to the
    next channel of the pixel, or from B over the alpha byte to R of the
    next pixel. *)
Theorem bit_index_mapping (l : loc) (σ : store) (bytes : list Z) :
  foldl (encode_byte l) (σ, 0) bytes =
    (foldl (λ σ '(i, b),
        buffer_set σ l (i / 3 * 4 + i mod 3)
          (setLSB (buffer_get σ l (i / 3 * 4 + i mod 3)) b))
       σ (imap (λ i b, (i, b)) (messageBits bytes)),
     length bytes * 8) ∧
  (∀ i, pixelIndexOf i = i / 3 * 4 + i mod 3 ∧
        pixelIndexOf i mod 4 = i mod 3 ∧ pixelIndexOf i mod 4 < 3 ∧
        pixelIndexOf i / 4 = i / 3) ∧
  (∀ i, pixelIndexOf (S i) =
        if decide (i mod 3 < 2) then pixelIndexOf i + 1 else pixelIndexOf i + 2).
Proof.
  split; [|split].
  - rewrite encode_loop_write_bits, write_bits_indexed, messageBits_length.
    done.
  - intros i. unfold pixelIndexOf. lia.
  - intros i. unfold pixelIndexOf. case_decide; lia.
Qed.

(** C9, as amended.  [encodeMessage] validates neither the message nor the
    length of the buffer: with the empty message and no key it embeds the
    eight zero bits of the delimiter and returns, for every buffer with
    room for eight bits, whether or not its length is a multiple of 4. *)
Theorem encode_empty_message `{NodeCrypto} (σ : store) data buf iv :
  σ !! data = Some buf →
  8 ≤ maxCapacityOf (length buf) →
  ∃ out σ',
    encodeMessage σ data EmptyString None iv = (Ok out, σ') ∧
    σ' !! out = Some (embedded buf (replicate 8 0%Z)).
Proof.
  intros Hd Hcap. do 2 eexists. split.
  - apply encodeMessage_ok. rewrite (buffer_length_Some _ _ buf) by done.
    replace (length (framedBytes EmptyString None iv)) with 1 by reflexivity. lia.
  - rewrite lookup_insert_eq, Hd. reflexivity.
Qed.

Lemma encode_empty_message_witness :
  ∃ out σ',
    @encodeMessage hex_crypto {[ 1%positive := replicate 11 255%Z ]} 1 EmptyString None []
      = (Ok out, σ') ∧
    σ' !! out = Some (embedded (replicate 11 255%Z) (replicate 8 0%Z)).
Proof.
  apply (@encode_empty_message hex_crypto {[ 1%positive := replicate 11 255%Z ]}
           1%positive (replicate 11 255%Z) []).
  - reflexivity.
  - vm_compute. lia.
Defined.

Lemma encode_empty_message_counterexample :
  (∃ out σ', @encodeMessage hex_crypto (zero_image 3) 1 EmptyString None [] = (Ok out, σ')) ∧
  (∃ out σ', @encodeMessage hex_crypto {[ 1%positive := replicate 11 255%Z ]} 1
               EmptyString None [] = (Ok out, σ')).
Proof. split; by do 2 eexists. Qed.

(** ** The decoding loops *)

Lemma for_each_app {A S R} (body : S → A → outcome S R) s xs ys :
  for_each body s (xs ++ ys) =
    match for_each body s xs with
    | Continue s' => for_each body s' ys
    | Return r => Return r
    end.
Proof.
  revert s. induction xs as [|x xs IH]; intros s; [done|].
  cbn [app for_each]. destruct (body s x); [apply IH|done].
Qed.

Lemma for_each_fmap {A B S R} (body : S → B → outcome S R) (g : A → B) s xs :
  for_each body s (g <$> xs) = for_each (λ s x, body s (g x)) s xs.
Proof.
  revert s. induction xs as [|x xs IH]; intros s; [done|].
  cbn [fmap list_fmap for_each]. destruct (body s (g x)); [apply IH|done].
Qed.

Lemma for_each_bind {A B S R} (body : S → B → outcome S R) (g : A → list B) s xs :
  for_each body s (xs ≫= g) = for_each (λ s x, for_each body s (g x)) s xs.
Proof.
  revert s. induction xs as [|x xs IH]; intros s; [done|].
  rewrite bind_cons, for_each_app. cbn [for_each].
  destruct (for_each body s (g x)); [apply IH|done].
Qed.

Lemma for_each_ext {A S R} (f g : S → A → outcome S R) s xs :
  (∀ s x, f s x = g s x) → for_each f s xs = for_each g s xs.
Proof.
  intros Hfg. revert s. induction xs as [|x xs IH]; intros s; [done|].
  cbn [for_each]. rewrite Hfg. destruct (g s x); [apply IH|done].
Qed.

Lemma decode_channel_scan_bit `{NodeCrypto} (σ : store) data key pixelIndex st channel :
  decode_channel σ data key pixelIndex st channel =
    scan_bit key st (Z.land (buffer_get σ data (pixelIndex + channel)) 1).
Proof. done. Qed.

(** The offsets visited by the nested loops are those of the mapping law. *)
Lemma visited_offsets n :
  (seq 0 n ≫= λ p, (λ c, 4 * p + c) <$> seq 0 3) = pixelIndexOf <$> seq 0 (3 * n).
Proof.
  induction n as [|n IH]; [done|].
  rewrite (seq_S n 0), bind_app, IH. cbn [mbind list_bind mapM app list_fmap fmap seq].
  replace (3 * S n) with (3 * n + 3) by lia.
  rewrite seq_app, fmap_app. cbn [seq fmap list_fmap]. f_equal.
  repeat f_equal; unfold pixelIndexOf; lia.
Qed.

Lemma mappedLSBs_offsets buf :
  mappedLSBs buf =
    (λ offset, Z.land (default 0%Z (buf !! offset)) 1)
      <$> (seq 0 ((length buf + 3) / 4) ≫= λ p, (λ c, 4 * p + c) <$> seq 0 3).
Proof. by rewrite visited_offsets, <- list_fmap_compose. Qed.

Lemma decode_loops_scan `{NodeCrypto} (σ : store) data buf key st :
  σ !! data = Some buf →
  for_each (decode_pixel σ data key) st (pixelIndices (buffer_length σ data)) =
    for_each (scan_bit key) st (mappedLSBs buf).
Proof.
  intros Hd. rewrite mappedLSBs_offsets. unfold pixelIndices, decode_pixel.
  rewrite (buffer_length_Some _ _ buf) by done.
  rewrite !for_each_fmap, for_each_bind.
  apply for_each_ext. intros s p. rewrite for_each_fmap.
  apply for_each_ext. intros s' c. rewrite decode_channel_scan_bit.
  unfold buffer_get. by rewrite Hd.
Qed.

(** Eight steps of the scan complete one byte. *)
Lemma scan_byte `{NodeCrypto} key acc b7 b6 b5 b4 b3 b2 b1 b0 rest :
  for_each (scan_bit key) (ScanState acc 0 0 (length acc))
      (b7 :: b6 :: b5 :: b4 :: b3 :: b2 :: b1 :: b0 :: rest) =
    let byte := foldl shift_in 0%Z [b7; b6; b5; b4; b3; b2; b1; b0] in
    if bool_decide (byte = 0%Z) then Return (decode_finish (acc ++ [byte]) key)
    else for_each (scan_bit key) (ScanState (acc ++ [byte]) 0 0 (S (length acc))) rest.
Proof.
  cbn [for_each foldl]. unfold scan_bit at 1 2 3 4 5 6 7 8.
  cbn [currentByte bitCount messageBytes byteIndex Nat.eqb].
  unfold array_set. rewrite Nat.ltb_irrefl.
  rewrite Nat.sub_succ, Nat.sub_0_r.
  rewrite lookup_app_r, Nat.sub_diag by lia. cbn [lookup list_lookup].
  unfold shift_in. set (byte := Z.lor _ b0).
  destruct (decide (byte = 0%Z)) as [Hz|Hnz].
  - rewrite !bool_decide_eq_true_2; congruence.
  - rewrite !bool_decide_eq_false_2; congruence.
Qed.

(** The scan of a whole bit stream. *)
Lemma scan_bits_spec `{NodeCrypto} key bits : ∀ acc,
  match untilTerminator (completedBytes bits) with
  | Some payload =>
      for_each (scan_bit key) (ScanState acc 0 0 (length acc)) bits =
        Return (decode_finish (acc ++ payload ++ [0%Z]) key)
  | None =>
      ∃ st, for_each (scan_bit key) (ScanState acc 0 0 (length acc)) bits =
              Continue st
  end.
Proof.
  induction bits as [bits IH] using (induction_ltof1 _ (@length Z)).
  unfold ltof in IH. intros acc.
  destruct bits as [|b7 [|b6 [|b5 [|b4 [|b3 [|b2 [|b1 [|b0 rest]]]]]]]];
    try (cbn; eauto; fail).
  rewrite scan_byte. cbn [completedBytes untilTerminator]. cbv zeta.
  set (byte := foldl shift_in 0%Z _).
  case_bool_decide as Hbyte.
  - by rewrite Hbyte.
  - specialize (IH rest ltac:(cbn; lia) (acc ++ [byte])).
    rewrite length_app, Nat.add_1_r in IH.
    destruct (untilTerminator (completedBytes rest)) as [payload|]; opt_simpl.
    + by rewrite IH, <- app_assoc.
    + done.
Qed.

Lemma slice_0_m1_snoc {A} (xs : list A) x : slice_0_m1 (xs ++ [x]) = xs.
Proof.
  unfold slice_0_m1. rewrite length_app, Nat.add_sub. by rewrite take_app_length.
Qed.

Lemma buffer_of_array_bytes xs : Forall is_byte xs → buffer_of_array xs = xs.
Proof.
  intros Hxs. unfold buffer_of_array.
  induction Hxs as [|x xs Hx _ IH]; [done|].
  cbn [fmap list_fmap] in *. rewrite IH. f_equal.
  apply Z.mod_small, Hx.
Qed.

Lemma decodeMessage_spec `{NodeCrypto} (σ : store) data buf key :
  σ !! data = Some buf →
  decodeMessage σ data key =
    try_catch DecodingFailed
      match untilTerminator (completedBytes (mappedLSBs buf)) with
      | Some payload => decode_finish (payload ++ [0%Z]) key
      | None => Throw NoMessageFound
      end.
Proof.
  intros Hd. unfold decodeMessage. rewrite (decode_loops_scan _ _ buf) by done.
  pose proof (scan_bits_spec key (mappedLSBs buf) []) as Hscan.
  destruct (untilTerminator (completedBytes (mappedLSBs buf))) as [payload|].
  - cbn [length app] in Hscan. by rewrite Hscan.
  - destruct Hscan as [st Hscan]. cbn [length] in Hscan. by rewrite Hscan.
Qed.

Lemma untilTerminator_None bytes : untilTerminator bytes = None ↔ 0%Z ∉ bytes.
Proof.
  induction bytes as [|b bytes IH]; cbn [untilTerminator].
  - split; [|done]. intros _. apply not_elem_of_nil.
  - rewrite not_elem_of_cons. case_bool_decide as Hb.
    + split; [done|]. intros [? _]. congruence.
    + rewrite fmap_None, IH. split; [|by intros [_ ?]].
      intros ?. split; [congruence|done].
Qed.

Lemma untilTerminator_app payload rest :
  0%Z ∉ payload → untilTerminator (payload ++ 0%Z :: rest) = Some payload.
Proof.
  induction payload as [|b payload IH]; intros Hnz; [done|].
  apply not_elem_of_cons in Hnz as [Hb Hnz].
  cbn [app untilTerminator]. rewrite bool_decide_eq_false_2 by done.
  by rewrite IH.
Qed.

Lemma decryptMessage_not_NoMessageFound `{NodeCrypto} envelope key :
  decryptMessage envelope key ≠ Throw NoMessageFound.
Proof.
  unfold decryptMessage.
  destruct (split_on ":" envelope !! 1); [|done].
  by destruct (decipher_utf8 _ _).
Qed.

Lemma decode_finish_not_NoMessageFound `{NodeCrypto} bytes key :
  decode_finish bytes key ≠ Throw NoMessageFound.
Proof.
  unfold decode_finish. destruct (truthy key); [|done].
  apply decryptMessage_not_NoMessageFound.
Qed.

Lemma shift_in_arith cur b : is_bit b → shift_in cur b = (2 * cur + b)%Z.
Proof.
  intros Hb. unfold shift_in. rewrite Z.shiftl_mul_pow2 by lia.
  change (2 ^ 1)%Z with 2%Z. rewrite Z.mul_comm. by apply lor_even_bit.
Qed.

Lemma completedBytes_is_byte bits :
  Forall is_bit bits → Forall is_byte (completedBytes bits).
Proof.
  induction bits as [bits IH] using (induction_ltof1 _ (@length Z)).
  unfold ltof in IH. intros Hbits.
  destruct bits as [|b7 [|b6 [|b5 [|b4 [|b3 [|b2 [|b1 [|b0 rest]]]]]]]];
    try (by constructor).
  cbn [completedBytes].
  repeat (apply Forall_cons in Hbits as [? Hbits]).
  constructor; [|apply IH; [cbn; lia|done]].
  cbn [foldl]. rewrite !shift_in_arith by done.
  unfold is_byte, is_bit in *. lia.
Qed.

(** ** Reading back what was embedded *)

Lemma messageBits_byte byte :
  is_byte byte → foldl shift_in 0%Z (messageBitOf byte <$> seq 0 8) = byte.
Proof.
  intros Hbyte. cbn [seq fmap list_fmap foldl].
  rewrite !shift_in_arith by apply messageBitOf_is_bit.
  unfold messageBitOf. rewrite !land_1, !Z.shiftr_div_pow2 by lia.
  cbn [Z.of_nat Pos.of_succ_nat Pos.succ Z.sub Z.add Z.opp Z.pos_sub Z.pow Z.pow_pos
       Pos.iter Z.mul Pos.mul Pos.pred_double Z.succ_double Z.pred_double Z.double
       Pos.add].
  unfold is_byte in Hbyte. lia.
Qed.

Lemma completedBytes_messageBits bytes rest :
  Forall is_byte bytes →
  completedBytes (messageBits bytes ++ rest) = bytes ++ completedBytes rest.
Proof.
  intros Hbytes. induction Hbytes as [|byte bytes Hbyte _ IH]; [done|].
  unfold messageBits in *. rewrite bind_cons, <- app_assoc.
  pose proof (messageBits_byte byte Hbyte) as Hb.
  cbn [seq fmap list_fmap app] in *. cbn [completedBytes].
  by rewrite Hb, IH.
Qed.

Lemma mappedLSBs_length buf : length (mappedLSBs buf) = 3 * ((length buf + 3) / 4).
Proof. unfold mappedLSBs. by rewrite length_fmap, length_seq. Qed.

Lemma mappedLSBs_embedded buf bits :
  Forall is_bit bits → length bits ≤ maxCapacityOf (length buf) →
  ∃ rest, mappedLSBs (embedded buf bits) = bits ++ rest.
Proof.
  intros Hbits Hcap. unfold maxCapacityOf in Hcap.
  exists (drop (length bits) (mappedLSBs (embedded buf bits))).
  rewrite <- (take_drop (length bits) (mappedLSBs _)) at 1. f_equal.
  apply list_eq; intros i.
  destruct (decide (i < length bits)) as [Hi|Hi].
  - rewrite lookup_take_lt by done.
    unfold mappedLSBs. rewrite list_lookup_fmap, embedded_length.
    rewrite lookup_seq_lt by lia. cbn [fmap option_fmap option_map plus].
    rewrite embedded_lookup, bitIndexOf_pixelIndexOf.
    assert (pixelIndexOf i < length buf) as Hoff by (unfold pixelIndexOf; lia).
    destruct (lookup_lt_is_Some_2 buf _ Hoff) as [old ->].
    destruct (lookup_lt_is_Some_2 bits _ Hi) as [b Hb].
    rewrite Hb. opt_simpl.
    rewrite bool_decide_eq_true_2 by (rewrite pixelIndexOf_mod4; lia).
    f_equal. apply setLSB_read. by eapply Forall_lookup_1.
  - rewrite lookup_take_ge by lia. by rewrite lookup_ge_None_2 by lia.
Qed.

(** ** Strings *)

Lemma byte_of_ascii_is_byte c : is_byte (byte_of_ascii c).
Proof.
  unfold is_byte, byte_of_ascii. pose proof (N_ascii_bounded c). lia.
Qed.

Lemma ascii_of_byte_of_ascii c : ascii_of_byte (byte_of_ascii c) = c.
Proof. unfold ascii_of_byte, byte_of_ascii. by rewrite N2Z.id, ascii_N_embedding. Qed.

Lemma byte_of_ascii_of_byte b : is_byte b → byte_of_ascii (ascii_of_byte b) = b.
Proof.
  intros Hb. unfold is_byte in Hb. unfold ascii_of_byte, byte_of_ascii.
  rewrite N_ascii_embedding by lia. lia.
Qed.

Lemma append_cons c s1 s2 : String c s1 +:+ s2 = String c (s1 +:+ s2).
Proof. done. Qed.

Lemma append_nil s : EmptyString +:+ s = s.
Proof. done. Qed.

Lemma utf8_bytes_app s1 s2 : utf8_bytes (s1 +:+ s2) = utf8_bytes s1 ++ utf8_bytes s2.
Proof.
  unfold utf8_bytes. induction s1 as [|c s1 IH]; [done|].
  rewrite append_cons. cbn [list_ascii_of_string fmap list_fmap app].
  f_equal. apply IH.
Qed.

Lemma utf8_bytes_is_byte s : Forall is_byte (utf8_bytes s).
Proof.
  unfold utf8_bytes. apply Forall_fmap, Forall_true. intros c.
  apply byte_of_ascii_is_byte.
Qed.

Lemma utf8_run_ascii bs :
  Forall (λ b, 0 ≤ b ≤ 127)%Z bs → utf8_run utf8_idle bs = bs.
Proof.
  induction 1 as [|b bs Hb _ IH]; [done|].
  cbn [utf8_run utf8_step utf8_idle utf8_needed]. unfold utf8_lead.
  rewrite (proj2 (Z.leb_le _ _)) by lia. fold utf8_idle. by rewrite IH.
Qed.

Lemma string_of_bytes_of_string s :
  string_of_list_ascii (ascii_of_byte <$> utf8_bytes s) = s.
Proof.
  unfold utf8_bytes. induction s as [|c s IH]; [done|].
  cbn [list_ascii_of_string fmap list_fmap string_of_list_ascii].
  by rewrite ascii_of_byte_of_ascii, IH.
Qed.

Lemma is_hex_bytes s :
  is_hex s = true → Forall (λ b, 48 ≤ b ≤ 102)%Z (utf8_bytes s).
Proof.
  unfold utf8_bytes. induction s as [|c s IH]; [done|]. cbn [is_hex].
  intros [Hc Hs]%andb_true_iff.
  cbn [list_ascii_of_string fmap list_fmap]. constructor; [lia|auto].
Qed.

(** An envelope stands for a JavaScript string: it is plain ASCII. *)
Lemma envelope_well_formed ivHex encrypted :
  is_hex ivHex = true → is_hex encrypted = true →
  well_formed (ivHex +:+ ":" +:+ encrypted).
Proof.
  intros Hiv Henc. unfold well_formed, utf8_string.
  rewrite utf8_run_ascii; [apply string_of_bytes_of_string|].
  rewrite !utf8_bytes_app. apply Forall_app. split; [|apply Forall_app; split].
  - eapply Forall_impl; [by apply is_hex_bytes|]. cbn. lia.
  - repeat constructor; vm_compute; congruence.
  - eapply Forall_impl; [by apply is_hex_bytes|]. cbn. lia.
Qed.

Lemma has_nul_false s : has_nul s = false → 0%Z ∉ utf8_bytes s.
Proof.
  unfold utf8_bytes. induction s as [|c s IH]; cbn [has_nul]; intros Hs.
  - apply not_elem_of_nil.
  - apply orb_false_iff in Hs as [Hc Hs].
    cbn [list_ascii_of_string fmap list_fmap]. apply not_elem_of_cons. split; [|auto].
    intros Hz. apply Ascii.eqb_neq in Hc. apply Hc.
    rewrite <- (ascii_of_byte_of_ascii c), <- Hz. done.
Qed.

Lemma has_nul_app s1 s2 : has_nul (s1 +:+ s2) = has_nul s1 || has_nul s2.
Proof.
  induction s1 as [|c s1 IH]; [done|].
  rewrite append_cons. cbn [has_nul]. by rewrite IH, orb_assoc.
Qed.

Lemma is_hex_has_nul s : is_hex s = true → has_nul s = false.
Proof.
  induction s as [|c s IH]; [done|]. cbn [is_hex has_nul].
  intros [Hc Hs]%andb_true_iff. rewrite IH by done.
  rewrite orb_false_r. apply Ascii.eqb_neq. intros ->.
  vm_compute in Hc. done.
Qed.

Lemma is_hex_split s : is_hex s = true → split_on ":" s = [s].
Proof.
  induction s as [|c s IH]; [done|]. cbn [is_hex split_on].
  intros [Hc Hs]%andb_true_iff. rewrite IH by done.
  destruct (Ascii.eqb_spec c ":") as [->|]; [|done].
  vm_compute in Hc. done.
Qed.

Lemma split_on_prefix ivHex rest :
  is_hex ivHex = true →
  split_on ":" (ivHex +:+ ":" +:+ rest) = ivHex :: split_on ":" rest.
Proof.
  intros Hiv. induction ivHex as [|c s IH].
  - by rewrite append_nil, append_cons.
  - cbn [is_hex] in Hiv. apply andb_true_iff in Hiv as [Hc Hs].
    rewrite append_cons. cbn [split_on]. rewrite IH by done.
    destruct (Ascii.eqb_spec c ":") as [->|]; [|done].
    vm_compute in Hc. done.
Qed.

Lemma split_on_envelope ivHex encrypted :
  is_hex ivHex = true → is_hex encrypted = true →
  split_on ":" (ivHex +:+ ":" +:+ encrypted) = [ivHex; encrypted].
Proof. intros Hiv Henc. by rewrite split_on_prefix, is_hex_split. Qed.

Lemma hex_digit_is_hex n rest :
  (0 ≤ n < 16)%Z → is_hex (String (hex_digit n) rest) = is_hex rest.
Proof.
  intros Hn. cbn [is_hex]. unfold hex_digit.
  destruct (Z.ltb_spec n 10);
    rewrite byte_of_ascii_of_byte by (unfold is_byte; lia);
    replace (is_hex rest) with (true && is_hex rest) at 2 by done; f_equal; lia.
Qed.

Lemma hex_of_bytes_is_hex bs :
  forallb is_byteb bs = true → is_hex (hex_of_bytes bs) = true.
Proof.
  induction bs as [|b bs IH]; [done|]. cbn [forallb hex_of_bytes].
  intros [Hb Hbs]%andb_true_iff. unfold is_byteb in Hb.
  rewrite !hex_digit_is_hex by lia. auto.
Qed.

(** ** Round trip *)

Lemma decode_finish_framed `{NodeCrypto} processed key :
  well_formed processed →
  decode_finish (utf8_bytes processed ++ [0%Z]) key =
    match truthy key with
    | Some k => decryptMessage processed k
    | None => Ok processed
    end.
Proof.
  intros Hwf. unfold decode_finish.
  rewrite slice_0_m1_snoc, buffer_of_array_bytes by apply utf8_bytes_is_byte.
  by rewrite Hwf.
Qed.

Lemma decode_embedded `{NodeCrypto} (σ : store) out buf processed key :
  σ !! out = Some (embedded buf
                     (messageBits (utf8_bytes (processed +:+ String zero EmptyString)))) →
  has_nul processed = false → well_formed processed →
  length (utf8_bytes (processed +:+ String zero EmptyString)) * 8
    ≤ maxCapacityOf (length buf) →
  decodeMessage σ out key =
    try_catch DecodingFailed
      match truthy key with
      | Some k => decryptMessage processed k
      | None => Ok processed
      end.
Proof.
  intros Hout Hnul Hwf Hcap. rewrite (decodeMessage_spec _ _ _ _ Hout).
  destruct (mappedLSBs_embedded buf
              (messageBits (utf8_bytes (processed +:+ String zero EmptyString))))
    as [rest ->]; [apply messageBits_is_bit|by rewrite messageBits_length|].
  rewrite completedBytes_messageBits by apply utf8_bytes_is_byte.
  rewrite utf8_bytes_app. change (utf8_bytes (String zero EmptyString)) with [0%Z].
  rewrite <- app_assoc. cbn [app].
  rewrite untilTerminator_app by by apply has_nul_false.
  by rewrite decode_finish_framed.
Qed.

Lemma split_decrypt `{NodeCrypto} ivHex encrypted key :
  is_hex ivHex = true → is_hex encrypted = true →
  decryptMessage (ivHex +:+ ":" +:+ encrypted) key =
    match decipher_utf8 (sha256_digest key) encrypted with
    | inl decrypted => Ok decrypted
    | inr reason => Throw (CryptoError reason)
    end.
Proof.
  intros Hiv Henc. unfold decryptMessage. by rewrite split_on_envelope.
Qed.

(** C1, as amended.  Let the framed bytes (the processed message and the
    delimiter) fit the capacity of the buffer.  Without a key (absent or
    empty), a well-formed message that holds no NUL character is returned
    by decoding what encoding produced.  With a key, the same holds when
    the bytes of the initialisation vector are bytes, the cipher text is
    hexadecimal and deciphering it under the hash of the key gives the
    message back. *)
Theorem encode_decode_roundtrip `{NodeCrypto} (σ : store) data buf m key iv :
  σ !! data = Some buf →
  length (framedBytes m key iv) * 8 ≤ maxCapacityOf (length buf) →
  match truthy key with
  | None => well_formed m ∧ has_nul m = false
  | Some k =>
      forallb is_byteb iv = true ∧
      is_hex (cipher_hex (sha256_digest k) m) = true ∧
      decipher_utf8 (sha256_digest k) (cipher_hex (sha256_digest k) m) = inl m
  end →
  ∃ out σ',
    encodeMessage σ data m key iv = (Ok out, σ') ∧
    decodeMessage σ' out key = Ok m.
Proof.
  intros Hd Hcap Hkey.
  set (processed := match truthy key with
                    | Some k => encryptMessage m k iv
                    | None => m
                    end).
  assert (has_nul processed = false ∧ well_formed processed ∧
          match truthy key with
          | Some k => decryptMessage processed k
          | None => Ok processed
          end = Ok m) as (Hnul & Hwf & Hdec).
  { subst processed. destruct (truthy key) as [k|]; [|by destruct Hkey].
    destruct Hkey as (Hiv & Hhex & Hdec). unfold encryptMessage.
    apply hex_of_bytes_is_hex in Hiv. split; [|split].
    - rewrite !has_nul_app.
      by rewrite (is_hex_has_nul _ Hiv), (is_hex_has_nul _ Hhex).
    - by apply envelope_well_formed.
    - by rewrite split_decrypt, Hdec. }
  do 2 eexists. split.
  - apply encodeMessage_ok. by rewrite (buffer_length_Some _ _ buf).
  - rewrite Hd. cbn [default from_option id].
    rewrite (decode_embedded _ _ buf processed key);
      [by rewrite Hdec|apply lookup_insert_eq|done|done|done].
Qed.

Lemma encode_decode_roundtrip_witness :
  (∃ out σ',
     @encodeMessage hex_crypto (zero_image 100) 1 "hi" None [] = (Ok out, σ') ∧
     @decodeMessage hex_crypto σ' out None = Ok "hi") ∧
  (∃ out σ',
     @encodeMessage hex_crypto (zero_image 100) 1 "a" (Some "k") [7; 255]%Z
       = (Ok out, σ') ∧
     @decodeMessage hex_crypto σ' out (Some "k") = Ok "a").
Proof.
  split.
  - apply (@encode_decode_roundtrip hex_crypto (zero_image 100) 1%positive
             (replicate (4 * 100) 0%Z) "hi" None []).
    + reflexivity.
    + vm_compute. lia.
    + split; reflexivity.
  - apply (@encode_decode_roundtrip hex_crypto (zero_image 100) 1%positive
             (replicate (4 * 100) 0%Z) "a" (Some "k") [7; 255]%Z).
    + reflexivity.
    + vm_compute. lia.
    + vm_compute. auto.
Defined.

Lemma encode_decode_roundtrip_counterexample :
  (length (utf8_bytes (String "a" (String zero "b"))) * 8 + 8
     ≤ maxCapacityOf (buffer_length (zero_image 100) 1) ∧
   ∃ out σ',
     @encodeMessage hex_crypto (zero_image 100) 1 (String "a" (String zero "b"))
        None [] = (Ok out, σ') ∧
     @decodeMessage hex_crypto σ' out None = Ok "a" ∧
     @decodeMessage hex_crypto σ' out None ≠ Ok (String "a" (String zero "b"))) ∧
  (length (utf8_bytes "hi") * 8 + 8 ≤ maxCapacityOf (buffer_length (zero_image 12) 1) ∧
   ∀ crypto : NodeCrypto, ∃ e,
     @encodeMessage crypto (zero_image 12) 1 "hi" (Some "k") (replicate 16 0%Z)
       = (Throw e, zero_image 12)).
Proof.
  split.
  - split; [vm_compute; lia|].
    exists 2%positive,
      (@encodeMessage hex_crypto (zero_image 100) 1 (String "a" (String zero "b"))
         None []).2.
    split; [vm_compute; reflexivity|].
    assert (@decodeMessage hex_crypto
              (@encodeMessage hex_crypto (zero_image 100) 1
                 (String "a" (String zero "b")) None []).2 2 None = Ok "a") as ->
      by (vm_compute; reflexivity).
    split; [done|]. intros [=].
  - split; [vm_compute; lia|]. intros crypto. eexists.
    apply encodeMessage_throw.
    unfold framedBytes, encryptMessage. cbn [truthy].
    rewrite !utf8_bytes_app, !length_app.
    replace (length (utf8_bytes (hex_of_bytes (replicate 16 0%Z)))) with 32
      by (vm_compute; reflexivity).
    replace (maxCapacityOf (buffer_length (zero_image 12) 1)) with 36
      by (vm_compute; reflexivity).
    lia.
Qed.

(** ** Decoding an arbitrary image *)

Lemma mappedLSBs_is_bit buf : Forall is_bit (mappedLSBs buf).
Proof.
  unfold mappedLSBs. apply Forall_fmap, Forall_true. intros i.
  unfold is_bit. cbn. rewrite land_1. lia.
Qed.

Lemma decode_finish_no_key `{NodeCrypto} payload :
  Forall is_byte payload →
  decode_finish (payload ++ [0%Z]) None = Ok (utf8_string payload).
Proof.
  intros Hp. unfold decode_finish.
  by rewrite slice_0_m1_snoc, buffer_of_array_bytes.
Qed.

Lemma untilTerminator_Some_is_byte bytes payload :
  Forall is_byte bytes → untilTerminator bytes = Some payload →
  Forall is_byte payload.
Proof.
  intros Hbytes. revert payload.
  induction Hbytes as [|b bytes Hb _ IH]; intros payload; [done|].
  cbn [untilTerminator]. case_bool_decide; [by intros [= <-]|].
  destruct (untilTerminator bytes) as [p|]; [|done].
  intros [= <-]. constructor; auto.
Qed.

Lemma decodeMessage_payload `{NodeCrypto} (σ : store) data buf payload :
  σ !! data = Some buf →
  untilTerminator (completedBytes (mappedLSBs buf)) = Some payload →
  decodeMessage σ data None = Ok (utf8_string payload).
Proof.
  intros Hd Hp. rewrite (decodeMessage_spec _ _ _ _ Hd), Hp.
  rewrite decode_finish_no_key; [done|].
  eapply untilTerminator_Some_is_byte; [|done].
  apply completedBytes_is_byte, mappedLSBs_is_bit.
Qed.

(** C8, as amended.  [decodeMessage] throws "No message found" exactly when
    no byte completed by the visited low bits is 0x00.  An image that was
    never encoded is not told apart from an encoded one: whenever a
    completed byte is 0x00, decoding without a key returns the bytes
    completed before the first such byte, decoded as UTF-8. *)
Theorem decode_no_message_found `{NodeCrypto} (σ : store) data buf key :
  σ !! data = Some buf →
  (decodeMessage σ data key = Throw (DecodingFailed NoMessageFound)
     ↔ 0%Z ∉ completedBytes (mappedLSBs buf)) ∧
  (∀ payload,
     untilTerminator (completedBytes (mappedLSBs buf)) = Some payload →
     decodeMessage σ data None = Ok (utf8_string payload)).
Proof.
  intros Hd. split.
  - rewrite (decodeMessage_spec _ _ _ _ Hd), <- untilTerminator_None.
    destruct (untilTerminator (completedBytes (mappedLSBs buf))) as [payload|];
      [|done].
    split; [|done]. intros Hthrow.
    pose proof (decode_finish_not_NoMessageFound (payload ++ [0%Z]) key) as Hne.
    destruct (decode_finish (payload ++ [0%Z]) key); cbn in Hthrow; congruence.
  - intros payload. by apply decodeMessage_payload.
Qed.

Lemma decode_no_message_found_witness :
  @decodeMessage hex_crypto {[ 1%positive := replicate 12 255%Z ]} 1 None
    = Throw (DecodingFailed NoMessageFound).
Proof.
  destruct (@decode_no_message_found hex_crypto
              {[ 1%positive := replicate 12 255%Z ]} 1%positive
              (replicate 12 255%Z) None) as [Hiff _]; [reflexivity|].
  apply Hiff. vm_compute. intros Hin. repeat (apply elem_of_cons in Hin as [Hin|Hin]; [done|]).
  by apply elem_of_nil in Hin.
Defined.

Lemma decode_no_message_found_counterexample :
  @decodeMessage hex_crypto (zero_image 100) 1 None = Ok EmptyString ∧
  @decodeMessage hex_crypto (zero_image 100) 1 None
    ≠ Throw (DecodingFailed NoMessageFound).
Proof.
  assert (@decodeMessage hex_crypto (zero_image 100) 1 None = Ok EmptyString) as ->
    by (vm_compute; reflexivity).
  done.
Qed.

(** C10.  On a buffer of at least three pixels whose first eight visited
    R, G and B bytes have a low bit of 0, [decodeMessage] without a key
    returns the empty string. *)
Theorem decode_leading_zero_bits `{NodeCrypto} (σ : store) data buf :
  σ !! data = Some buf →
  12 ≤ length buf →
  (∀ i, i < 8 → Z.land (default 0%Z (buf !! pixelIndexOf i)) 1 = 0%Z) →
  decodeMessage σ data None = Ok EmptyString.
Proof.
  intros Hd Hlen Hzero.
  apply (decodeMessage_payload σ data buf [] Hd).
  unfold mappedLSBs.
  replace (3 * ((length buf + 3) / 4)) with (8 + (3 * ((length buf + 3) / 4) - 8))
    by lia.
  rewrite seq_app, fmap_app. cbn [seq fmap list_fmap app completedBytes].
  rewrite !Hzero by lia. cbn [foldl]. 
  change (foldl shift_in 0%Z [0; 0; 0; 0; 0; 0; 0; 0]%Z) with 0%Z. done.
Qed.

Lemma decode_leading_zero_bits_witness :
  @decodeMessage hex_crypto (zero_image 3) 1 None = Ok EmptyString.
Proof.
  apply (@decode_leading_zero_bits hex_crypto (zero_image 3) 1%positive
           (replicate (4 * 3) 0%Z)).
  - reflexivity.
  - cbn. lia.
  - intros i Hi. do 8 (destruct i as [|i]; [reflexivity|]). lia.
Defined.

(** ** The stored initialisation vector *)

Lemma decryptMessage_prefix `{NodeCrypto} iv rest key :
  forallb is_byteb iv = true →
  decryptMessage (hex_of_bytes iv +:+ ":" +:+ rest) key =
    match split_on ":" rest !! 0 with
    | Some encrypted =>
        match decipher_utf8 (sha256_digest key) encrypted with
        | inl decrypted => Ok decrypted
        | inr reason => Throw (CryptoError reason)
        end
    | None => Throw (CryptoError "ERR_INVALID_ARG_TYPE")
    end.
Proof.
  intros Hiv. unfold decryptMessage.
  by rewrite split_on_prefix by by apply hex_of_bytes_is_hex.
Qed.

(** C3, as the code has it.  [decryptMessage] gives the same result for two
    envelopes that differ only in the stored initialisation vector: the
    vector is parsed and then takes no part in the decryption. *)
Theorem decrypt_ignores_stored_iv `{NodeCrypto} (iv1 iv2 : list Z) encrypted key :
  forallb is_byteb iv1 = true → forallb is_byteb iv2 = true →
  decryptMessage (hex_of_bytes iv1 +:+ ":" +:+ encrypted) key =
    decryptMessage (hex_of_bytes iv2 +:+ ":" +:+ encrypted) key.
Proof. intros Hiv1 Hiv2. by rewrite !decryptMessage_prefix. Qed.

Lemma decrypt_ignores_stored_iv_witness :
  @decryptMessage hex_crypto
      (hex_of_bytes (replicate 16 0%Z) +:+ ":" +:+ "6869") "k" =
    @decryptMessage hex_crypto
      (hex_of_bytes (replicate 16 255%Z) +:+ ":" +:+ "6869") "k".
Proof.
  apply (@decrypt_ignores_stored_iv hex_crypto (replicate 16 0%Z)
           (replicate 16 255%Z) "6869" "k"); reflexivity.
Defined.

Lemma decrypt_stored_iv_example :
  @decryptMessage hex_crypto "00000000000000000000000000000000:6869" "k" = Ok "hi" ∧
  @decryptMessage hex_crypto "ffffffffffffffffffffffffffffffff:6869" "k" = Ok "hi".
Proof. split; vm_compute; reflexivity. Qed.

(** * Further facts *)

(** ** Capacity *)

Lemma framedBytes_no_key `{NodeCrypto} m iv :
  framedBytes m None iv = utf8_bytes m ++ [0%Z].
Proof. unfold framedBytes. cbn [truthy]. by rewrite utf8_bytes_app. Qed.

(** X1.  For an image of [width] by [height] pixels and no key,
    [encodeMessage] accepts a message exactly when its byte length is
    strictly below [calculateCapacity]: the delimiter takes one of the
    bytes that [calculateCapacity] announces.  A message of that many bytes
    or more is refused, and the error reports [calculateCapacity] as the
    maximum. *)
Theorem calculateCapacity_admits `{NodeCrypto} (σ : store) data buf width height m iv :
  σ !! data = Some buf →
  length buf = 4 * (width * height) →
  ((∃ out σ', encodeMessage σ data m None iv = (Ok out, σ'))
     ↔ length (utf8_bytes m) < calculateCapacity width height) ∧
  (calculateCapacity width height ≤ length (utf8_bytes m) →
   encodeMessage σ data m None iv =
     (Throw (EncodingFailed
        (MessageTooLarge (calculateCapacity width height)
           (length (utf8_bytes m) + 1))), σ)).
Proof.
  intros Hd Hlen.
  assert (maxCapacityOf (buffer_length σ data) = width * height * 3) as Hcap.
  { rewrite (buffer_length_Some _ _ buf), Hlen by done. unfold maxCapacityOf. lia. }
  assert (length (framedBytes m None iv) = length (utf8_bytes m) + 1) as Hfr.
  { rewrite framedBytes_no_key, length_app. done. }
  unfold calculateCapacity. cbv zeta. split.
  - split.
    + intros (out & σ' & Hok).
      destruct (encodeMessage_cases σ data m None iv) as [[_ Hr]|[Hle _]];
        [congruence|]. rewrite Hcap, Hfr in Hle. lia.
    + intros Hlt. do 2 eexists. apply encodeMessage_ok. rewrite Hcap, Hfr. lia.
  - intros Hge. rewrite <- Hcap, <- Hfr. apply encodeMessage_throw.
    rewrite Hcap, Hfr. lia.
Qed.

Lemma calculateCapacity_admits_witness :
  (∃ out σ', @encodeMessage hex_crypto (zero_image 100) 1 "hi" None [] = (Ok out, σ'))
    ↔ length (utf8_bytes "hi") < calculateCapacity 10 10.
Proof.
  apply (@calculateCapacity_admits hex_crypto (zero_image 100) 1%positive
           (replicate (4 * 100) 0%Z) 10 10 "hi" []); reflexivity.
Defined.



(** X3.  A buffer of at most 10 bytes (fewer than three pixels) has no
    room for the delimiter alone: [encodeMessage] throws for every message
    and key, reporting a maximum of 0 bytes. *)
Theorem encode_tiny_buffer `{NodeCrypto} (σ : store) data m key iv :
  buffer_length σ data ≤ 10 →
  encodeMessage σ data m key iv =
    (Throw (EncodingFailed (MessageTooLarge 0 (length (framedBytes m key iv)))), σ).
Proof.
  intros Hlen.
  assert (1 ≤ length (framedBytes m key iv)) as Hfr.
  { unfold framedBytes. rewrite utf8_bytes_app, length_app. cbn. lia. }
  assert (maxCapacityOf (buffer_length σ data) / 8 = 0) as Hz
    by (unfold maxCapacityOf; lia).
  rewrite <- Hz. apply encodeMessage_throw. unfold maxCapacityOf. lia.
Qed.

Lemma encode_tiny_buffer_witness :
  @encodeMessage hex_crypto (zero_image 2) 1 EmptyString None [] =
    (Throw (EncodingFailed
       (MessageTooLarge 0 (length (@framedBytes hex_crypto EmptyString None [])))),
     zero_image 2).
Proof.
  apply (@encode_tiny_buffer hex_crypto (zero_image 2) 1%positive EmptyString None []).
  vm_compute. lia.
Defined.

Lemma hex_of_bytes_length bs : length (utf8_bytes (hex_of_bytes bs)) = 2 * length bs.
Proof.
  unfold utf8_bytes. induction bs as [|b bs IH]; [done|].
  cbn [hex_of_bytes list_ascii_of_string fmap list_fmap length] in *. lia.
Qed.

Lemma truthy_Some key k : truthy key = Some k → key = Some k ∧ k ≠ EmptyString.
Proof. destruct key as [[|c s]|]; cbn; intros [= <-]; done. Qed.

(** X4.  With a non-empty key the framed bytes are two hexadecimal digits
    per byte of the initialisation vector, the colon, the cipher text and
    the delimiter; so [encodeMessage] throws whenever the capacity is below
    [16 * length iv + 16] bits, whatever the message. *)
Theorem keyed_envelope_overhead `{NodeCrypto} (σ : store) data m k iv :
  k ≠ EmptyString →
  length (framedBytes m (Some k) iv) =
    2 * length iv + length (utf8_bytes (cipher_hex (sha256_digest k) m)) + 2 ∧
  (maxCapacityOf (buffer_length σ data) < 16 * length iv + 16 →
   ∃ e, encodeMessage σ data m (Some k) iv = (Throw e, σ)).
Proof.
  intros Hk.
  assert (length (framedBytes m (Some k) iv) =
    2 * length iv + length (utf8_bytes (cipher_hex (sha256_digest k) m)) + 2) as Hfr.
  { unfold framedBytes. destruct k as [|c k]; [done|]. cbn [truthy].
    unfold encryptMessage. rewrite !utf8_bytes_app, !length_app.
    rewrite hex_of_bytes_length. cbn [utf8_bytes list_ascii_of_string fmap
      list_fmap length]. lia. }
  split; [done|]. intros Hcap. eexists. apply encodeMessage_throw. lia.
Qed.

Lemma keyed_envelope_overhead_witness :
  length (@framedBytes hex_crypto "hi" (Some "k") (replicate 16 0%Z)) =
    2 * length (replicate 16 0%Z)
    + length (utf8_bytes (@cipher_hex hex_crypto (@sha256_digest hex_crypto "k") "hi"))
    + 2.
Proof.
  apply (@keyed_envelope_overhead hex_crypto (zero_image 12) 1%positive "hi" "k"
           (replicate 16 0%Z)).
  discriminate.
Defined.

(** ** The layout of the embedded bits *)

Lemma messageBits_lookup bytes j k byte :
  bytes !! j = Some byte → k < 8 →
  messageBits bytes !! (8 * j + k) = Some (messageBitOf byte k).
Proof.
  revert j. induction bytes as [|b bytes IH]; intros j Hj Hk; [done|].
  unfold messageBits in *. rewrite bind_cons.
  destruct j as [|j].
  - injection Hj as ->. rewrite lookup_app_l by (rewrite length_fmap, length_seq; lia).
    rewrite list_lookup_fmap, lookup_seq_lt by lia. by rewrite Nat.mul_0_r.
  - rewrite lookup_app_r by (rewrite length_fmap, length_seq; lia).
    rewrite length_fmap, length_seq.
    replace (8 * S j + k - 8) with (8 * j + k) by lia. by apply IH.
Qed.

Lemma encodeMessage_returns `{NodeCrypto} (σ σ' : store) data buf m key iv out :
  σ !! data = Some buf →
  encodeMessage σ data m key iv = (Ok out, σ') →
  length (framedBytes m key iv) * 8 ≤ maxCapacityOf (length buf) ∧
  σ !! out = None ∧
  σ' = <[out := embedded buf (messageBits (framedBytes m key iv))]> σ.
Proof.
  intros Hd Henc.
  destruct (encodeMessage_cases σ data m key iv) as [[_ Hr]|[Hle Hr]];
    rewrite Hr in Henc; [done|].
  injection Henc as <- <-. rewrite Hd. cbn [default from_option id].
  rewrite (buffer_length_Some _ _ buf) in Hle by done.
  split; [done|]. split; [apply fresh_loc_unused|done].
Qed.

(** X5.  After a successful [encodeMessage], bit [k] (counted from the
    most significant) of framed byte [j] is the low bit of the output byte
    at offset [pixelIndexOf (8 * j + k)], whose seven high bits are those
    of the input byte. *)
Theorem encode_bit_layout `{NodeCrypto} (σ σ' : store) data buf m key iv out j k byte :
  σ !! data = Some buf →
  encodeMessage σ data m key iv = (Ok out, σ') →
  framedBytes m key iv !! j = Some byte → k < 8 →
  ∃ buf' old new,
    σ' !! out = Some buf' ∧
    buf !! pixelIndexOf (8 * j + k) = Some old ∧
    buf' !! pixelIndexOf (8 * j + k) = Some new ∧
    Z.land new 1 = Z.land (Z.shiftr byte (7 - Z.of_nat k)) 1 ∧
    Z.land new 254 = Z.land old 254.
Proof.
  intros Hd Henc Hj Hk.
  destruct (encodeMessage_returns _ _ _ _ _ _ _ _ Hd Henc) as (Hcap & _ & ->).
  pose proof (messageBits_lookup _ _ _ _ Hj Hk) as Hbit.
  pose proof (lookup_lt_Some _ _ _ Hj) as Hjlt.
  assert (pixelIndexOf (8 * j + k) < length buf) as Hoff.
  { unfold maxCapacityOf in Hcap. unfold pixelIndexOf. lia. }
  destruct (lookup_lt_is_Some_2 buf _ Hoff) as [old Hold].
  exists (embedded buf (messageBits (framedBytes m key iv))), old,
    (setLSB old (messageBitOf byte k)).
  split; [apply lookup_insert_eq|]. split; [done|].
  rewrite embedded_lookup, Hold, bitIndexOf_pixelIndexOf, Hbit. opt_simpl.
  rewrite bool_decide_eq_true_2 by (rewrite pixelIndexOf_mod4; lia).
  split; [done|]. split.
  - apply setLSB_read, messageBitOf_is_bit.
  - rewrite setLSB_arith by apply messageBitOf_is_bit.
    rewrite !land_254. destruct (messageBitOf_is_bit byte k) as [-> | ->]; lia.
Qed.

Lemma encode_bit_layout_witness :
  ∃ buf' old new,
    (@encodeMessage hex_crypto (zero_image 100) 1 "hi" None []).2 !! 2%positive
      = Some buf' ∧
    replicate (4 * 100) 0%Z !! pixelIndexOf (8 * 1 + 7) = Some old ∧
    buf' !! pixelIndexOf (8 * 1 + 7) = Some new ∧
    Z.land new 1 = Z.land (Z.shiftr 105 (7 - Z.of_nat 7)) 1 ∧
    Z.land new 254 = Z.land old 254.
Proof.
  apply (@encode_bit_layout hex_crypto (zero_image 100)
           (@encodeMessage hex_crypto (zero_image 100) 1 "hi" None []).2
           1%positive (replicate (4 * 100) 0%Z) "hi" None [] 2%positive 1 7 105%Z).
  - reflexivity.
  - vm_compute. reflexivity.
  - reflexivity.
  - lia.
Defined.

(** X6.  [encodeMessage] leaves every byte from the offset of the first
    unused bit index onwards as it is in the input. *)
Theorem encode_leaves_tail `{NodeCrypto} (σ σ' : store) data buf m key iv out offset :
  σ !! data = Some buf →
  encodeMessage σ data m key iv = (Ok out, σ') →
  pixelIndexOf (length (framedBytes m key iv) * 8) ≤ offset →
  ∃ buf', σ' !! out = Some buf' ∧ buf' !! offset = buf !! offset.
Proof.
  intros Hd Henc Hoff.
  destruct (encodeMessage_returns _ _ _ _ _ _ _ _ Hd Henc) as (_ & _ & ->).
  eexists. split; [apply lookup_insert_eq|].
  rewrite embedded_lookup. destruct (buf !! offset) as [old|]; [|done]. opt_simpl.
  case_bool_decide as Hm; [|done].
  rewrite lookup_ge_None_2; [done|].
  rewrite messageBits_length. unfold pixelIndexOf, bitIndexOf in *. lia.
Qed.

Lemma encode_leaves_tail_witness :
  ∃ buf',
    (@encodeMessage hex_crypto {[ 1%positive := replicate 40 255%Z ]} 1 "hi" None []).2
      !! 2%positive = Some buf' ∧
    buf' !! 32 = replicate 40 255%Z !! 32.
Proof.
  apply (@encode_leaves_tail hex_crypto {[ 1%positive := replicate 40 255%Z ]}
           (@encodeMessage hex_crypto {[ 1%positive := replicate 40 255%Z ]} 1
              "hi" None []).2
           1%positive (replicate 40 255%Z) "hi" None [] 2%positive 32).
  - reflexivity.
  - vm_compute. reflexivity.
  - vm_compute. lia.
Defined.

Lemma setLSB_idem old b : is_bit b → setLSB (setLSB old b) b = setLSB old b.
Proof.
  intros Hb. rewrite !setLSB_arith by done. destruct Hb as [-> | ->]; lia.
Qed.

Lemma embedded_idem buf bits :
  Forall is_bit bits → embedded (embedded buf bits) bits = embedded buf bits.
Proof.
  intros Hbits. apply list_eq; intros offset.
  rewrite (embedded_lookup (embedded buf bits)), embedded_lookup.
  destruct (buf !! offset) as [old|]; [|done]. opt_simpl.
  case_bool_decide; [|done].
  destruct (bits !! bitIndexOf offset) as [b|] eqn:Hb; [|done].
  f_equal. apply setLSB_idem. by eapply Forall_lookup_1.
Qed.

(** X7.  Encoding the same message, with the same key and initialisation
    vector, into the result of an encoding returns a new buffer with the
    same bytes, and leaves the first result untouched. *)
Theorem encode_twice `{NodeCrypto} (σ σ' : store) data buf m key iv out :
  σ !! data = Some buf →
  encodeMessage σ data m key iv = (Ok out, σ') →
  ∃ out2 σ'',
    encodeMessage σ' out m key iv = (Ok out2, σ'') ∧
    out2 ≠ out ∧
    σ'' !! out2 = σ' !! out ∧
    σ'' !! out = σ' !! out.
Proof.
  intros Hd Henc.
  destruct (encodeMessage_returns _ _ _ _ _ _ _ _ Hd Henc) as (Hcap & _ & Hσ').
  assert (σ' !! out = Some (embedded buf (messageBits (framedBytes m key iv))))
    as Hout by (rewrite Hσ'; apply lookup_insert_eq).
  pose proof (fresh_loc_unused σ') as Hfresh.
  assert (fresh (dom σ') ≠ out) as Hne by congruence.
  exists (fresh (dom σ')), (<[fresh (dom σ') :=
    embedded (default [] (σ' !! out)) (messageBits (framedBytes m key iv))]> σ').
  split; [|split; [done|split]].
  - apply encodeMessage_ok.
    by rewrite (buffer_length_Some _ _ _ Hout), embedded_length.
  - rewrite lookup_insert_eq, Hout. cbn [default from_option id].
    by rewrite embedded_idem by apply messageBits_is_bit.
  - by rewrite lookup_insert_ne.
Qed.

Lemma encode_twice_witness :
  ∃ out2 σ'',
    @encodeMessage hex_crypto
      (@encodeMessage hex_crypto (zero_image 100) 1 "hi" None []).2 2 "hi" None []
      = (Ok out2, σ'') ∧
    out2 ≠ 2%positive ∧
    σ'' !! out2
      = (@encodeMessage hex_crypto (zero_image 100) 1 "hi" None []).2 !! 2%positive ∧
    σ'' !! 2%positive
      = (@encodeMessage hex_crypto (zero_image 100) 1 "hi" None []).2 !! 2%positive.
Proof.
  apply (@encode_twice hex_crypto (zero_image 100)
           (@encodeMessage hex_crypto (zero_image 100) 1 "hi" None []).2
           1%positive (replicate (4 * 100) 0%Z) "hi" None [] 2%positive).
  - reflexivity.
  - vm_compute. reflexivity.
Defined.

(** ** What decoding looks at *)

(** X8.  [decodeMessage] depends on a buffer only through its length and
    the low bits of its R, G and B bytes: two buffers that agree on those
    decode alike, for every key. *)
Theorem decode_reads_low_bits_only `{NodeCrypto} (σ : store) data1 data2 buf1 buf2 key :
  σ !! data1 = Some buf1 → σ !! data2 = Some buf2 →
  length buf1 = length buf2 →
  (∀ offset b1 b2,
     offset mod 4 < 3 → buf1 !! offset = Some b1 → buf2 !! offset = Some b2 →
     Z.land b1 1 = Z.land b2 1) →
  decodeMessage σ data1 key = decodeMessage σ data2 key.
Proof.
  intros Hd1 Hd2 Hlen Hlsb.
  rewrite (decodeMessage_spec _ _ _ _ Hd1), (decodeMessage_spec _ _ _ _ Hd2).
  replace (mappedLSBs buf2) with (mappedLSBs buf1); [done|].
  unfold mappedLSBs. rewrite <- Hlen. apply list_fmap_ext. intros _ i _.
  destruct (buf1 !! pixelIndexOf i) as [b1|] eqn:H1.
  - destruct (lookup_lt_is_Some_2 buf2 (pixelIndexOf i)) as [b2 H2].
    { rewrite <- Hlen. by eapply lookup_lt_Some. }
    rewrite H2. cbn. eapply Hlsb; [|done..]. rewrite pixelIndexOf_mod4. lia.
  - rewrite (lookup_ge_None_2 buf2); [done|].
    rewrite <- Hlen. by apply lookup_ge_None_1.
Qed.

Lemma decode_reads_low_bits_only_witness :
  @decodeMessage hex_crypto
      {[ 1%positive := replicate 12 254%Z; 2%positive := replicate 12 0%Z ]} 1 None =
    @decodeMessage hex_crypto
      {[ 1%positive := replicate 12 254%Z; 2%positive := replicate 12 0%Z ]} 2 None.
Proof.
  apply (@decode_reads_low_bits_only hex_crypto _ 1%positive 2%positive
           (replicate 12 254%Z) (replicate 12 0%Z) None).
  - reflexivity.
  - reflexivity.
  - reflexivity.
  - intros offset b1 b2 _ [-> _]%lookup_replicate [-> _]%lookup_replicate.
    reflexivity.
Defined.

Lemma completedBytes_short bits : length bits < 8 → completedBytes bits = [].
Proof.
  intros Hlen.
  destruct bits as [|b7 [|b6 [|b5 [|b4 [|b3 [|b2 [|b1 [|b0 rest]]]]]]]]; try done.
  cbn in Hlen. lia.
Qed.

(** X9.  A buffer of at most 8 bytes yields fewer than eight bits:
    [decodeMessage] throws "No message found", for every key. *)
Theorem decode_tiny_buffer `{NodeCrypto} (σ : store) data buf key :
  σ !! data = Some buf → length buf ≤ 8 →
  decodeMessage σ data key = Throw (DecodingFailed NoMessageFound).
Proof.
  intros Hd Hlen. rewrite (decodeMessage_spec _ _ _ _ Hd).
  rewrite completedBytes_short; [done|]. rewrite mappedLSBs_length. lia.
Qed.

Lemma decode_tiny_buffer_witness :
  @decodeMessage hex_crypto (zero_image 2) 1 (Some "k")
    = Throw (DecodingFailed NoMessageFound).
Proof.
  apply (@decode_tiny_buffer hex_crypto (zero_image 2) 1%positive
           (replicate (4 * 2) 0%Z) (Some "k")).
  - reflexivity.
  - cbn. lia.
Defined.

Lemma completedBytes_prefix bits rest :
  ∃ more, completedBytes (bits ++ rest) = completedBytes bits ++ more.
Proof.
  induction bits as [bits IH] using (induction_ltof1 _ (@length Z)).
  unfold ltof in IH.
  destruct bits as [|b7 [|b6 [|b5 [|b4 [|b3 [|b2 [|b1 [|b0 bits]]]]]]]];
    try (cbn [completedBytes]; eexists; reflexivity).
  destruct (IH bits ltac:(cbn; lia)) as [more Hmore].
  exists more. cbn [app completedBytes]. by rewrite Hmore.
Qed.

Lemma untilTerminator_prefix bytes more payload :
  untilTerminator bytes = Some payload →
  untilTerminator (bytes ++ more) = Some payload.
Proof.
  revert payload. induction bytes as [|b bytes IH]; intros payload; [done|].
  cbn [app untilTerminator]. case_bool_decide; [done|].
  destruct (untilTerminator bytes) as [p|]; [|done].
  intros [= <-]. by rewrite (IH p).
Qed.

Lemma mappedLSBs_app buf extra :
  length buf mod 4 = 0 →
  ∃ rest, mappedLSBs (buf ++ extra) = mappedLSBs buf ++ rest.
Proof.
  intros Hlen.
  exists (drop (length (mappedLSBs buf)) (mappedLSBs (buf ++ extra))).
  rewrite <- (take_drop (length (mappedLSBs buf)) (mappedLSBs (buf ++ extra))) at 1.
  f_equal. apply list_eq; intros i. rewrite mappedLSBs_length.
  destruct (decide (i < 3 * ((length buf + 3) / 4))) as [Hi|Hi].
  - rewrite lookup_take_lt by done. unfold mappedLSBs.
    rewrite !list_lookup_fmap, length_app.
    rewrite !lookup_seq_lt by lia. cbn [fmap option_fmap option_map plus].
    rewrite lookup_app_l; [done|]. unfold pixelIndexOf. lia.
  - rewrite lookup_take_ge by lia. unfold mappedLSBs.
    rewrite list_lookup_fmap, lookup_seq_ge by lia. done.
Qed.

(** X10.  Once the delimiter is found in a buffer of whole pixels, pixels
    appended after it change nothing: the longer buffer decodes to the same
    result. *)
Theorem decode_ignores_later_pixels `{NodeCrypto} (σ : store) data1 data2 buf extra key :
  σ !! data1 = Some buf → σ !! data2 = Some (buf ++ extra) →
  length buf mod 4 = 0 →
  decodeMessage σ data1 key ≠ Throw (DecodingFailed NoMessageFound) →
  decodeMessage σ data2 key = decodeMessage σ data1 key.
Proof.
  intros Hd1 Hd2 Hlen Hfound.
  rewrite (decodeMessage_spec _ _ _ _ Hd1) in Hfound |- *.
  rewrite (decodeMessage_spec _ _ _ _ Hd2).
  destruct (mappedLSBs_app buf extra Hlen) as [rest ->].
  destruct (completedBytes_prefix (mappedLSBs buf) rest) as [more ->].
  destruct (untilTerminator (completedBytes (mappedLSBs buf))) as [payload|] eqn:Hp;
    [|done].
  by rewrite (untilTerminator_prefix _ more payload).
Qed.

Lemma decode_ignores_later_pixels_witness :
  @decodeMessage hex_crypto
      {[ 1%positive := replicate 12 0%Z;
         2%positive := replicate 12 0%Z ++ replicate 8 255%Z ]} 2 None =
    @decodeMessage hex_crypto
      {[ 1%positive := replicate 12 0%Z;
         2%positive := replicate 12 0%Z ++ replicate 8 255%Z ]} 1 None.
Proof.
  apply (@decode_ignores_later_pixels hex_crypto _ 1%positive 2%positive
           (replicate 12 0%Z) (replicate 8 255%Z) None).
  - reflexivity.
  - reflexivity.
  - reflexivity.
  - vm_compute. discriminate.
Defined.

(** ** Keys and envelopes *)

Lemma split_on_no_colon s : has_colon s = false → split_on ":" s = [s].
Proof.
  induction s as [|c s IH]; [done|]. cbn [has_colon split_on].
  intros [Hc Hs]%orb_false_iff. by rewrite Hc, IH.
Qed.

Lemma split_on_colon a rest :
  has_colon a = false → split_on ":" (a +:+ ":" +:+ rest) = a :: split_on ":" rest.
Proof.
  intros Ha. induction a as [|c a IH].
  - by rewrite append_nil, append_cons.
  - cbn [has_colon] in Ha. apply orb_false_iff in Ha as [Hc Ha].
    rewrite append_cons. cbn [split_on]. by rewrite Hc, IH.
Qed.

Lemma is_hex_has_colon s : is_hex s = true → has_colon s = false.
Proof.
  induction s as [|c s IH]; [done|]. cbn [is_hex has_colon].
  intros [Hc Hs]%andb_true_iff. rewrite IH by done.
  rewrite orb_false_r. apply Ascii.eqb_neq. intros ->.
  vm_compute in Hc. done.
Qed.

(** X11.  [decryptMessage] on a string without a colon throws; what
    follows a second colon is ignored; and of [ivHex:encrypted] only
    [encrypted] and the key reach the decipher. *)
Theorem decrypt_envelope_shape `{NodeCrypto} ivHex encrypted rest key :
  has_colon ivHex = false → has_colon encrypted = false →
  decryptMessage ivHex key = Throw (CryptoError "ERR_INVALID_ARG_TYPE") ∧
  decryptMessage (ivHex +:+ ":" +:+ encrypted +:+ ":" +:+ rest) key =
    decryptMessage (ivHex +:+ ":" +:+ encrypted) key ∧
  decryptMessage (ivHex +:+ ":" +:+ encrypted) key =
    match decipher_utf8 (sha256_digest key) encrypted with
    | inl decrypted => Ok decrypted
    | inr reason => Throw (CryptoError reason)
    end.
Proof.
  intros Hiv Henc. unfold decryptMessage.
  assert (split_on ":" (ivHex +:+ ":" +:+ encrypted) = [ivHex; encrypted]) as ->
    by (by rewrite split_on_colon, split_on_no_colon).
  split; [by rewrite split_on_no_colon|]. split; [|done].
  by rewrite !split_on_colon.
Qed.

Lemma decrypt_envelope_shape_witness :
  @decryptMessage hex_crypto "00ff" "k" = Throw (CryptoError "ERR_INVALID_ARG_TYPE") ∧
  @decryptMessage hex_crypto ("00ff" +:+ ":" +:+ "6869" +:+ ":" +:+ "zz") "k" =
    @decryptMessage hex_crypto ("00ff" +:+ ":" +:+ "6869") "k" ∧
  @decryptMessage hex_crypto ("00ff" +:+ ":" +:+ "6869") "k" =
    match @decipher_utf8 hex_crypto (@sha256_digest hex_crypto "k") "6869" with
    | inl decrypted => Ok decrypted
    | inr reason => Throw (CryptoError reason)
    end.
Proof.
  apply (@decrypt_envelope_shape hex_crypto "00ff" "6869" "zz" "k"); reflexivity.
Defined.

(** X12.  [decryptMessage] undoes [encryptMessage] under the same key,
    whatever initialisation vector was drawn, when the cipher text is
    hexadecimal and the decipher undoes the cipher on this message. *)
Theorem encrypt_decrypt_roundtrip `{NodeCrypto} m key iv :
  forallb is_byteb iv = true →
  is_hex (cipher_hex (sha256_digest key) m) = true →
  decipher_utf8 (sha256_digest key) (cipher_hex (sha256_digest key) m) = inl m →
  decryptMessage (encryptMessage m key iv) key = Ok m.
Proof.
  intros Hiv Hhex Hdec. unfold encryptMessage.
  rewrite split_decrypt by auto using hex_of_bytes_is_hex. by rewrite Hdec.
Qed.

Lemma encrypt_decrypt_roundtrip_witness :
  @decryptMessage hex_crypto (@encryptMessage hex_crypto "hi" "k" [0; 255]%Z) "k"
    = Ok "hi".
Proof.
  apply (@encrypt_decrypt_roundtrip hex_crypto "hi" "k" [0; 255]%Z); reflexivity.
Defined.

(** X13.  Decoding without a key an image that was encoded with one
    does not fail: it returns the envelope [ivHex:encrypted] as the
    message. *)
Theorem decode_keyed_without_key `{NodeCrypto} (σ : store) data buf m k iv :
  σ !! data = Some buf →
  k ≠ EmptyString →
  length (framedBytes m (Some k) iv) * 8 ≤ maxCapacityOf (length buf) →
  forallb is_byteb iv = true →
  is_hex (cipher_hex (sha256_digest k) m) = true →
  ∃ out σ',
    encodeMessage σ data m (Some k) iv = (Ok out, σ') ∧
    decodeMessage σ' out None = Ok (encryptMessage m k iv).
Proof.
  intros Hd Hk Hcap Hiv Hhex. apply hex_of_bytes_is_hex in Hiv.
  do 2 eexists. split.
  - apply encodeMessage_ok. by rewrite (buffer_length_Some _ _ buf).
  - rewrite Hd. cbn [default from_option id].
    unfold framedBytes in *. destruct k as [|c k]; [done|]. cbn [truthy] in *.
    rewrite (decode_embedded _ _ buf (encryptMessage m (String c k) iv) None);
      [done|apply lookup_insert_eq| | |done].
    + unfold encryptMessage. rewrite !has_nul_app.
      by rewrite (is_hex_has_nul _ Hiv), (is_hex_has_nul _ Hhex).
    + by apply envelope_well_formed.
Qed.

Lemma decode_keyed_without_key_witness :
  ∃ out σ',
    @encodeMessage hex_crypto (zero_image 100) 1 "a" (Some "k") [7; 255]%Z
      = (Ok out, σ') ∧
    @decodeMessage hex_crypto σ' out None
      = Ok (@encryptMessage hex_crypto "a" "k" [7; 255]%Z).
Proof.
  apply (@decode_keyed_without_key hex_crypto (zero_image 100) 1%positive
           (replicate (4 * 100) 0%Z) "a" "k" [7; 255]%Z).
  - reflexivity.
  - discriminate.
  - vm_compute. lia.
  - reflexivity.
  - reflexivity.
Defined.

(** X14.  Decoding with a key an image that was encoded without one,
    the message holding no colon, throws "Decoding failed" with the type
    error of the decipher, which was handed [undefined]. *)
Theorem decode_plain_with_key `{NodeCrypto} (σ : store) data buf m k iv :
  σ !! data = Some buf →
  k ≠ EmptyString →
  length (utf8_bytes m) * 8 + 8 ≤ maxCapacityOf (length buf) →
  well_formed m → has_nul m = false → has_colon m = false →
  ∃ out σ',
    encodeMessage σ data m None iv = (Ok out, σ') ∧
    decodeMessage σ' out (Some k) =
      Throw (DecodingFailed (CryptoError "ERR_INVALID_ARG_TYPE")).
Proof.
  intros Hd Hk Hcap Hwf Hnul Hcolon.
  assert (length (framedBytes m None iv) * 8 ≤ maxCapacityOf (length buf)) as Hfit.
  { rewrite framedBytes_no_key, length_app. cbn [length]. lia. }
  do 2 eexists. split.
  - apply encodeMessage_ok. by rewrite (buffer_length_Some _ _ buf).
  - rewrite Hd. cbn [default from_option id]. unfold framedBytes in *.
    cbn [truthy] in *.
    rewrite (decode_embedded _ _ buf m (Some k));
      [|apply lookup_insert_eq|done|done|done].
    destruct k as [|c k]; [done|]. cbn [truthy].
    unfold decryptMessage. by rewrite split_on_no_colon.
Qed.

Lemma decode_plain_with_key_witness :
  ∃ out σ',
    @encodeMessage hex_crypto (zero_image 100) 1 "hi" None [] = (Ok out, σ') ∧
    @decodeMessage hex_crypto σ' out (Some "k") =
      Throw (DecodingFailed (CryptoError "ERR_INVALID_ARG_TYPE")).
Proof.
  apply (@decode_plain_with_key hex_crypto (zero_image 100) 1%positive
           (replicate (4 * 100) 0%Z) "hi" "k" []).
  - reflexivity.
  - discriminate.
  - vm_compute. lia.
  - reflexivity.
  - reflexivity.
  - reflexivity.
Defined.

(** X15.  Decoding with a key [k2] an image encoded with a key [k1]
    returns whatever the decipher makes of the cipher text under the hash
    of [k2], or "Decoding failed" with the reason it throws: the codec adds
    no check of its own. *)
Theorem decode_with_other_key `{NodeCrypto} (σ : store) data buf m k1 k2 iv :
  σ !! data = Some buf →
  k1 ≠ EmptyString → k2 ≠ EmptyString →
  length (framedBytes m (Some k1) iv) * 8 ≤ maxCapacityOf (length buf) →
  forallb is_byteb iv = true →
  is_hex (cipher_hex (sha256_digest k1) m) = true →
  ∃ out σ',
    encodeMessage σ data m (Some k1) iv = (Ok out, σ') ∧
    decodeMessage σ' out (Some k2) =
      match decipher_utf8 (sha256_digest k2) (cipher_hex (sha256_digest k1) m) with
      | inl decrypted => Ok decrypted
      | inr reason => Throw (DecodingFailed (CryptoError reason))
      end.
Proof.
  intros Hd Hk1 Hk2 Hcap Hiv Hhex. apply hex_of_bytes_is_hex in Hiv.
  do 2 eexists. split.
  - apply encodeMessage_ok. by rewrite (buffer_length_Some _ _ buf).
  - rewrite Hd. cbn [default from_option id].
    unfold framedBytes in *. destruct k1 as [|c1 k1]; [done|]. cbn [truthy] in *.
    rewrite (decode_embedded _ _ buf (encryptMessage m (String c1 k1) iv) (Some k2));
      [|apply lookup_insert_eq| | |done].
    + destruct k2 as [|c2 k2]; [done|]. cbn [truthy]. unfold encryptMessage.
      rewrite split_decrypt by done. by destruct (decipher_utf8 _ _).
    + unfold encryptMessage. rewrite !has_nul_app.
      by rewrite (is_hex_has_nul _ Hiv), (is_hex_has_nul _ Hhex).
    + by apply envelope_well_formed.
Qed.

Lemma decode_with_other_key_witness :
  ∃ out σ',
    @encodeMessage hex_crypto (zero_image 100) 1 "a" (Some "k") [7; 255]%Z
      = (Ok out, σ') ∧
    @decodeMessage hex_crypto σ' out (Some "other") =
      match @decipher_utf8 hex_crypto (@sha256_digest hex_crypto "other")
              (@cipher_hex hex_crypto (@sha256_digest hex_crypto "k") "a") with
      | inl decrypted => Ok decrypted
      | inr reason => Throw (DecodingFailed (CryptoError reason))
      end.
Proof.
  apply (@decode_with_other_key hex_crypto (zero_image 100) 1%positive
           (replicate (4 * 100) 0%Z) "a" "k" "other" [7; 255]%Z).
  - reflexivity.
  - discriminate.
  - discriminate.
  - vm_compute. lia.
  - reflexivity.
  - reflexivity.
Defined.

(** ** The delimiter *)

(** X16.  Without a key, a message with a NUL character comes back cut at
    its first NUL. *)
Theorem decode_stops_at_first_nul `{NodeCrypto} (σ : store) data buf before after iv :
  σ !! data = Some buf →
  length (utf8_bytes (before +:+ String zero after)) * 8 + 8
    ≤ maxCapacityOf (length buf) →
  well_formed before → has_nul before = false →
  ∃ out σ',
    encodeMessage σ data (before +:+ String zero after) None iv = (Ok out, σ') ∧
    decodeMessage σ' out None = Ok before.
Proof.
  intros Hd Hcap Hwf Hnul.
  set (m := before +:+ String zero after) in *.
  assert (length (framedBytes m None iv) * 8 ≤ maxCapacityOf (length buf)) as Hfit.
  { rewrite framedBytes_no_key, length_app. cbn [length]. lia. }
  do 2 eexists. split.
  - apply encodeMessage_ok. by rewrite (buffer_length_Some _ _ buf).
  - rewrite Hd. cbn [default from_option id].
    rewrite (decodeMessage_spec _ _ _ _ (lookup_insert_eq _ _ _)).
    destruct (mappedLSBs_embedded buf (messageBits (framedBytes m None iv)))
      as [rest ->]; [apply messageBits_is_bit|by rewrite messageBits_length|].
    rewrite completedBytes_messageBits by apply utf8_bytes_is_byte.
    rewrite framedBytes_no_key. subst m.
    rewrite utf8_bytes_app, <- !app_assoc.
    change (utf8_bytes (String zero after)) with (0%Z :: utf8_bytes after).
    cbn [app]. rewrite untilTerminator_app by by apply has_nul_false.
    by rewrite decode_finish_framed.
Qed.

Lemma decode_stops_at_first_nul_witness :
  ∃ out σ',
    @encodeMessage hex_crypto (zero_image 100) 1 ("a" +:+ String zero "b") None []
      = (Ok out, σ') ∧
    @decodeMessage hex_crypto σ' out None = Ok "a".
Proof.
  apply (@decode_stops_at_first_nul hex_crypto (zero_image 100) 1%positive
           (replicate (4 * 100) 0%Z) "a" "b" []).
  - reflexivity.
  - vm_compute. lia.
  - reflexivity.
  - reflexivity.
Defined.

Lemma utf8_run_Forall (P : Z → Prop) bs : ∀ st,
  Forall P utf8_replacement → Forall P (utf8_seen st) → Forall P bs →
  Forall P (utf8_run st bs).
Proof.
  induction bs as [|b bs IH]; intros st Hrep Hseen Hbs.
  - cbn [utf8_run]. by destruct (utf8_needed st).
  - apply Forall_cons in Hbs as [Hb Hbs]. cbn [utf8_run].
    assert (∀ out st', utf8_lead b = (out, st') →
              Forall P out ∧ Forall P (utf8_seen st')) as Hlead.
    { unfold utf8_lead. intros out st'.
      repeat case_match; intros [= <- <-]; cbn [utf8_seen utf8_idle];
        (split; [first [exact Hrep | by repeat constructor]
                | by repeat constructor]). }
    destruct (utf8_step st b) as [out st'] eqn:Hstep.
    assert (Forall P out ∧ Forall P (utf8_seen st')) as [Hout Hst'].
    { unfold utf8_step in Hstep. destruct (utf8_needed st) as [|needed].
      - by apply Hlead.
      - case_match.
        + destruct needed; injection Hstep as <- <-; cbn [utf8_seen utf8_idle];
            split; try constructor; apply Forall_app; by repeat constructor.
        + destruct (utf8_lead b) as [out0 st0] eqn:Hl.
          injection Hstep as <- <-. destruct (Hlead _ _ eq_refl).
          split; [|done]. change (Forall P (utf8_replacement ++ out0)).
          by apply Forall_app. }
    apply Forall_app. split; [done|]. by apply IH.
Qed.

Lemma string_of_bytes_no_nul bs :
  Forall (λ b, 0 < b < 256)%Z bs →
  has_nul (string_of_list_ascii (ascii_of_byte <$> bs)) = false.
Proof.
  induction 1 as [|b bs Hb _ IH]; [done|].
  cbn [fmap list_fmap string_of_list_ascii has_nul]. rewrite IH, orb_false_r.
  apply Ascii.eqb_neq. intros Hz.
  assert (byte_of_ascii (ascii_of_byte b) = 0%Z) as Hzero by (by rewrite Hz).
  rewrite byte_of_ascii_of_byte in Hzero by (unfold is_byte; lia). lia.
Qed.

Lemma untilTerminator_Some_nonzero bytes payload :
  untilTerminator bytes = Some payload → Forall (λ b, b ≠ 0%Z) payload.
Proof.
  revert payload. induction bytes as [|b bytes IH]; intros payload; [done|].
  cbn [untilTerminator]. case_bool_decide; [by intros [= <-]|].
  destruct (untilTerminator bytes) as [p|]; [|done].
  intros [= <-]. constructor; auto.
Qed.

(** X17.  A string returned by [decodeMessage] without a key holds no NUL
    character. *)
Theorem decode_result_has_no_nul `{NodeCrypto} (σ : store) data buf s :
  σ !! data = Some buf →
  decodeMessage σ data None = Ok s →
  has_nul s = false.
Proof.
  intros Hd. rewrite (decodeMessage_spec _ _ _ _ Hd).
  destruct (untilTerminator (completedBytes (mappedLSBs buf))) as [payload|] eqn:Hp;
    [|done].
  assert (Forall is_byte payload) as Hbytes.
  { eapply untilTerminator_Some_is_byte; [|done].
    apply completedBytes_is_byte, mappedLSBs_is_bit. }
  pose proof (untilTerminator_Some_nonzero _ _ Hp) as Hnz.
  rewrite decode_finish_no_key by done. intros [= <-].
  unfold utf8_string. apply string_of_bytes_no_nul.
  apply utf8_run_Forall.
  - repeat constructor; lia.
  - constructor.
  - apply Forall_forall. intros b Hb.
    pose proof (proj1 (Forall_forall _ _) Hbytes b Hb) as Hbyte.
    pose proof (proj1 (Forall_forall _ _) Hnz b Hb) as Hne.
    unfold is_byte in Hbyte. cbn beta in Hne. lia.
Qed.

Lemma decode_result_has_no_nul_witness : has_nul EmptyString = false.
Proof.
  apply (@decode_result_has_no_nul hex_crypto (zero_image 3) 1%positive
           (replicate (4 * 3) 0%Z) EmptyString).
  - reflexivity.
  - vm_compute. reflexivity.
Defined.
